(** * go-shopify: the shared request-execution engine

    A shallow embedding of the core of the client library (request
    building, the bounded-retry transport loop, the error classifier,
    the rate-limit tracker, the pagination extractor and the GraphQL
    cost-aware retry loop), together with the properties its
    specification states about them.

    Go values are modelled as follows: [int] and [time.Duration] as [Z],
    [string] as [string] (a sequence of bytes), [float64] as the
    binary64 instance of [spec_float], slices as lists, Go maps as
    [gmap]s ranged over in an order chosen by the runtime, and [error]
    as the inductive type [error] below. *)

From Stdlib Require Import ZArith String Ascii List Sorting.Sorted Lia.
From Stdlib Require OrderedTypeEx.
From Corelib Require Import SpecFloat.
From stdpp Require Import base decidable option list sorting gmap strings.

Local Open Scope string_scope.
Local Open Scope list_scope.
Local Open Scope Z_scope.

Set Warnings "-register-all".

(** ** Machine integers and floating point *)

Definition MinInt64 : Z := - 2 ^ 63.
Definition MaxInt64 : Z := 2 ^ 63 - 1.

(** Two's-complement wrap-around of 64-bit signed arithmetic ([int],
    [int64] and [time.Duration] on the platforms the client targets). *)
Definition wrap64 (z : Z) : Z := (z + 2 ^ 63) mod 2 ^ 64 - 2 ^ 63.

Definition int_add (a b : Z) : Z := wrap64 (a + b).
Definition int_sub (a b : Z) : Z := wrap64 (a - b).
Definition int_mul (a b : Z) : Z := wrap64 (a * b).

(** [time.Second], in nanoseconds. *)
Definition Second : Z := 1000000000.

(** [float64] is IEEE 754 binary64: 53 bits of precision, exponent of the
    infinities 1024, rounding to nearest even. *)
Definition float64 : Type := spec_float.
Definition prec : Z := 53.
Definition emax : Z := 1024.

Definition f64_zero : float64 := S754_zero false.
Definition f64_sub (x y : float64) : float64 := SFsub prec emax x y.
Definition f64_div (x y : float64) : float64 := SFdiv prec emax x y.
Definition f64_neg (x : float64) : float64 := SFopp x.
Definition f64_lt (x y : float64) : bool := SFltb x y.

(** The conversion [float64(n)] of an integer: the nearest float. *)
Definition f64_of_int (n : Z) : float64 := binary_normalize prec emax n 0 false.

(** The integer part of a float (fraction discarded), when it has one. *)
Definition f64_trunc (f : float64) : option Z :=
  match f with
  | S754_zero _ => Some 0
  | S754_finite s m e =>
      let a := if 0 <=? e then Z.pos m * 2 ^ e else Z.pos m / 2 ^ (- e) in
      Some (if s then - a else a)
  | S754_infinity _ | S754_nan => None
  end.

(** What the Go runtime leaves to the implementation. *)
Class Runtime := {
  (** the result of converting to [int] a float with no integer part in
      range (NaN, infinities, magnitudes beyond 64 bits) *)
  float_to_int_unrepresentable : float64 → Z;
  (** the order in which [range] visits the entries of a map *)
  map_range : ∀ {V : Type}, gmap string V → list (string * V);
  map_range_perm : ∀ {V : Type} (m : gmap string V), map_range m ≡ₚ map_to_list m
}.

(** The conversions [int(f)] and [time.Duration(f)] of a [float64]. *)
Definition int_of_f64 `{Runtime} (f : float64) : Z :=
  match f64_trunc f with
  | Some z =>
      if (MinInt64 <=? z) && (z <=? MaxInt64) then z
      else float_to_int_unrepresentable f
  | None => float_to_int_unrepresentable f
  end.

(** ** Strings *)

(** [strings.Join(elems, sep)]. *)
Definition Join (elems : list string) (sep : string) : string :=
  String.concat sep elems.

(** Byte-wise lexicographic order on strings, Go's [<=] on [string]. *)
Definition string_le (s1 s2 : string) : Prop := String.leb s1 s2 = true.

#[local] Instance string_le_dec s1 s2 : Decision (string_le s1 s2).
Proof. unfold string_le. apply _. Defined.

(** [sort.Strings(x)]: the slice sorted in increasing order. *)
Definition sort_Strings (x : list string) : list string :=
  merge_sort string_le x.

(** [strings.Split(s, sep)] for a one-byte separator: the substrings
    between the separators, one more than there are separators. *)
Fixpoint Split (s : string) (sep : ascii) : list string :=
  match s with
  | EmptyString => [EmptyString]
  | String c s' =>
      if Ascii.eqb c sep then EmptyString :: Split s' sep
      else
        match Split s' sep with
        | [] => [String c EmptyString]
        | x :: xs => String c x :: xs
        end
  end.

(** The double-quote byte. *)
Definition dquote : ascii := "034"%char.

(** ** The error taxonomy *)

(** [ResponseError]: a general response error, either a single message or
    a list of messages. *)
Record ResponseError := mkResponseError {
  Status : Z;
  Message : string;
  Errors : list string
}.

(** The two causes of a [*strconv.NumError]. *)
Inductive NumErrorCause := ErrSyntax | ErrRange.

(** Go's [error] values, as far as the engine distinguishes them.
    [ResponseDecodingError] carries the body, the message and the status;
    [RateLimitError] embeds a [ResponseError]; [NumError] is
    [*strconv.NumError]; [OtherError] stands for the errors of the
    standard library that the engine passes on unchanged (transport,
    I/O, URL and JSON decoding errors). *)
Inductive error :=
| ResponseError_ (e : ResponseError)
| ResponseDecodingError (Body : string) (Message : string) (Status : Z)
| RateLimitError (e : ResponseError) (RetryAfter : Z)
| NumError (Func Num : string) (Err : NumErrorCause)
| OtherError (msg : string).

(** The [ResponseError] an error is or embeds. *)
Definition embedded_ResponseError (err : error) : option ResponseError :=
  match err with
  | ResponseError_ e | RateLimitError e _ => Some e
  | _ => None
  end.

(** [func (e ResponseError) Error() string].  The source sorts
    [e.Errors] in place before joining; the rendered string is the
    function's result. *)
Definition ResponseError_Error (e : ResponseError) : string :=
  if decide (Message e ≠ "") then Message e
  else
    let s := Join (sort_Strings (Errors e)) ", " in
    if decide (s ≠ "") then s else "Unknown Error".

(** ** strconv *)

Definition digit_of (c : ascii) : option Z :=
  let n := Z.of_N (N_of_ascii c) in
  if (48 <=? n) && (n <=? 57) then Some (n - 48) else None.

Fixpoint parse_digits (s : string) (acc : Z) : option Z :=
  match s with
  | EmptyString => Some acc
  | String c s' =>
      match digit_of c with
      | Some d => parse_digits s' (acc * 10 + d)
      | None => None
      end
  end.

(** [strconv.Atoi]: an optional sign and decimal digits.  A syntax error
    yields 0, a value out of the range of [int] the nearest bound, each
    with a [*NumError]. *)
Definition Atoi (s : string) : Z * option error :=
  let '(neg, digits) :=
    match s with
    | String "-" r => (true, r)
    | String "+" r => (false, r)
    | _ => (false, s)
    end in
  match digits with
  | EmptyString => (0, Some (NumError "Atoi" s ErrSyntax))
  | _ =>
      match parse_digits digits 0 with
      | None => (0, Some (NumError "Atoi" s ErrSyntax))
      | Some n =>
          let v := if neg : bool then - n else n in
          if v <? MinInt64 then (MinInt64, Some (NumError "Atoi" s ErrRange))
          else if MaxInt64 <? v then (MaxInt64, Some (NumError "Atoi" s ErrRange))
          else (v, None)
      end
  end.

(** [strconv.ParseFloat(s, 64)]: the value it returns (0 on a syntax
    error) and whether it reported an error.  The decimal-to-binary
    conversion is the standard library's. *)
Class Strconv := {
  ParseFloat : string → float64 * bool
}.

(** ** Dynamic values and the libraries the classifier calls *)

(** What [encoding/json] stores in an [interface{}]: [nil] for null,
    [bool], [float64] for numbers, [string], [[]interface{}] for arrays
    and [map[string]interface{}] for objects. *)
Inductive GoValue :=
| GoNil
| GoBool (b : bool)
| GoFloat64 (f : float64)
| GoString (s : string)
| GoSlice (elems : list GoValue)
| GoMap (m : gmap string GoValue).

(** [encoding/json]: [json.Unmarshal(body, &shopifyError)] into the
    anonymous struct with the fields [Error string] (key [error]) and
    [Errors interface{}] (key [errors]): the two fields as the decoder
    leaves them, or the decoder's error message. *)
Class EncodingJSON := {
  Unmarshal_shopifyError : string → (string * GoValue) + string
}.

(** [fmt]: the [%v] rendering of the values other than strings. *)
Class Fmt := {
  format_nonstring : GoValue → string
}.

(** [fmt.Sprint(v)] and the verb [%v]: a string is rendered as itself. *)
Definition Sprint `{Fmt} (v : GoValue) : string :=
  match v with
  | GoString s => s
  | _ => format_nonstring v
  end.

(** [fmt.Sprintf("%v: %v", k, elem)]. *)
Definition Sprintf_topic `{Fmt} (k : string) (elem : GoValue) : string :=
  k +:+ ": " +:+ Sprint elem.

(** A function either returns or panics. *)
Inductive outcome (A : Type) :=
| Returns (a : A)
| Panics.
Arguments Returns {A} a.
Arguments Panics {A}.

(** ** HTTP responses *)

(** [http.Response]: the status code, the headers (by canonical name,
    first value) and the body: its bytes, or the error reading it. *)
Record Response := mkResponse {
  StatusCode : Z;
  Header : gmap string string;
  RespBody : string + string
}.

(** [Header.Get(key)]: the empty string when the header is absent. *)
Definition Header_Get (h : gmap string string) (key : string) : string :=
  default "" (h !! key).

Definition StatusTooManyRequests : Z := 429.
Definition StatusNotAcceptable : Z := 406.
Definition StatusServiceUnavailable : Z := 503.
Definition StatusOK : Z := 200.
Definition StatusMultipleChoices : Z := 300.

(** ** The error classifier *)

(** [wrapSpecificError]: a 429 is wrapped as a [RateLimitError] with the
    integer part of the [Retry-After] header, a 406 gets the status text
    as its message. *)
Definition wrapSpecificError `{Strconv} `{Runtime}
    (r : Response) (err : ResponseError) : error :=
  if Status err =? StatusTooManyRequests then
    let f := fst (ParseFloat (Header_Get (Header r) "Retry-After")) in
    RateLimitError err (int_of_f64 f)
  else if Status err =? StatusNotAcceptable then
    ResponseError_ (mkResponseError (Status err) "Not Acceptable" (Errors err))
  else ResponseError_ err.

(** One pass of the innermost loop of the map case: the pair becomes the
    message when none is set, and is appended to the list. *)
Definition add_topic `{Fmt} (k : string) (re : ResponseError) (elem : GoValue)
    : ResponseError :=
  let topicAndElem := Sprintf_topic k elem in
  mkResponseError (Status re)
    (if decide (Message re = "") then topicAndElem else Message re)
    (Errors re ++ [topicAndElem]).

(** The loop over the entries of a map-shaped [errors] field, in the
    order the runtime ranges over them.  [reflect.TypeOf(v).Kind()]
    panics on a nil value. *)
Fixpoint flatten_entries `{Fmt} (kvs : list (string * GoValue))
    (re : ResponseError) : outcome ResponseError :=
  match kvs with
  | [] => Returns re
  | (k, v) :: rest =>
      match v with
      | GoNil => Panics
      | GoSlice elems => flatten_entries rest (fold_left (add_topic k) elems re)
      | GoString s => flatten_entries rest (add_topic k re (GoString s))
      | GoBool _ | GoFloat64 _ | GoMap _ => flatten_entries rest re
      end
  end.

(** [CheckResponseError]: [None] is Go's nil error. *)
Definition CheckResponseError `{EncodingJSON} `{Fmt} `{Strconv} `{Runtime}
    (r : Response) : outcome (option error) :=
  if (StatusOK <=? StatusCode r) && (StatusCode r <? StatusMultipleChoices)
  then Returns None
  else
    match RespBody r with
    | inr e => Returns (Some (OtherError e))
    | inl bodyBytes =>
        let decoded :=
          if decide (bodyBytes = "") then inl ("", GoNil)
          else Unmarshal_shopifyError bodyBytes in
        match decoded with
        | inr msg =>
            Returns (Some (ResponseDecodingError bodyBytes msg (StatusCode r)))
        | inl (shopifyError_Error, shopifyError_Errors) =>
            let responseError :=
              mkResponseError (StatusCode r) shopifyError_Error [] in
            match shopifyError_Errors with
            | GoNil => Returns (Some (wrapSpecificError r responseError))
            | GoString s =>
                Returns (Some (wrapSpecificError r
                  (mkResponseError (StatusCode r) s [])))
            | GoSlice elems =>
                let errs := map Sprint elems in
                Returns (Some (wrapSpecificError r
                  (mkResponseError (StatusCode r) (Join errs ", ") errs)))
            | GoMap m =>
                match flatten_entries (map_range m) responseError with
                | Returns re => Returns (Some (wrapSpecificError r re))
                | Panics => Panics
                end
            | GoBool _ | GoFloat64 _ =>
                Returns (Some (wrapSpecificError r responseError))
            end
        end
    end.

(** The messages of one entry of a map-shaped [errors] field: one per
    element of an array, one for a string, none for the other values. *)
Definition topic_messages `{Fmt} (kv : string * GoValue) : list string :=
  match kv.2 with
  | GoSlice elems => map (Sprintf_topic kv.1) elems
  | GoString s => [Sprintf_topic kv.1 (GoString s)]
  | _ => []
  end.

(** The message after a run of the innermost loop: the first new
    sub-message when none was set before. *)
Definition first_or (msg : string) (new : list string) : string :=
  if decide (msg = "") then default "" (head new) else msg.

(** ** GraphQL cost metadata *)

(** [GraphQLThrottleStatus]: the status of the shop's rate-limit points. *)
Record GraphQLThrottleStatus := mkGraphQLThrottleStatus {
  MaximumAvailable : float64;
  CurrentlyAvailable : float64;
  RestoreRate : float64
}.

(** [GraphQLCost]: the cost of a query; [ActualQueryCost] is a pointer
    that may be nil. *)
Record GraphQLCost := mkGraphQLCost {
  RequestedQueryCost : Z;
  ActualQueryCost : option Z;
  ThrottleStatus : GraphQLThrottleStatus
}.

(** [func (c GraphQLCost) RetryAfterSeconds() float64]. *)
Definition RetryAfterSeconds (c : GraphQLCost) : float64 :=
  let diff :=
    match ActualQueryCost c with
    | Some actual =>
        f64_sub (CurrentlyAvailable (ThrottleStatus c)) (f64_of_int actual)
    | None =>
        f64_sub (CurrentlyAvailable (ThrottleStatus c))
                (f64_of_int (RequestedQueryCost c))
    end in
  if f64_lt diff f64_zero
  then f64_div (f64_neg diff) (RestoreRate (ThrottleStatus c))
  else f64_zero.

(** The cost that counts: the actual cost when present, the requested
    cost otherwise. *)
Definition query_cost (c : GraphQLCost) : Z :=
  default (RequestedQueryCost c) (ActualQueryCost c).

(** ** The client *)

Module RateLimitInfo.
(** [RateLimitInfo], the client's rate-limit state. *)
Record t := mk {
  RequestCount : Z;
  BucketSize : Z;
  GraphQLCost : option GraphQLCost;
  RetryAfterSeconds : float64
}.
End RateLimitInfo.

(** The fields of [Client] the engine reads and writes; the HTTP client
    is the script of round trips below, and the logger, the credentials
    and the per-resource services play no part in the engine's control
    flow. *)
Record Client := mkClient {
  pathPrefix : string;
  apiVersion : string;
  retries : Z;
  attempts : Z;
  RateLimits : RateLimitInfo.t
}.

Definition defaultApiVersion : string := "stable".

Definition set_attempts (c : Client) (n : Z) : Client :=
  mkClient (pathPrefix c) (apiVersion c) (retries c) n (RateLimits c).

Definition set_apiVersion (c : Client) (v : string) : Client :=
  mkClient (pathPrefix c) v (retries c) (attempts c) (RateLimits c).

Definition set_RateLimits (c : Client) (rl : RateLimitInfo.t) : Client :=
  mkClient (pathPrefix c) (apiVersion c) (retries c) (attempts c) rl.

(** ** The transport executor *)

(** What [c.Client.Do(req)] gives on one attempt: a response, or the
    HTTP client's own error. *)
Definition RoundTrip : Type := Response + string.

(** What a run of the engine does besides computing: the requests it
    sends (with the body sent), the calls of [time.Sleep], and the calls
    of the client's own delay function, each with its duration in
    nanoseconds.  The delay function is the field [sleep] of [Client],
    set by the option [WithSleep]; both are declared outside the files
    at hand, and a call [c.sleep(d)] is recorded as [EvClientSleep d]. *)
Inductive Event :=
| EvSend (body : option string)
| EvTimeSleep (d : Z)
| EvClientSleep (d : Z).

(** A run ends by completing, by panicking, by asking the transport for
    a round trip beyond those scripted, or by using up the fuel of a
    loop without a structural bound. *)
Inductive run (A : Type) :=
| Done (a : A)
| Panicked
| Starved
| OutOfFuel.
Arguments Done {A} a.
Arguments Panicked {A}.
Arguments Starved {A}.
Arguments OutOfFuel {A}.

(** How the retry loop ends: the attempts made, the events so far, the
    round trips left, and either the response it broke out with or the
    error it returned. *)
Record LoopExit := mkLoopExit {
  le_attempts : Z;
  le_trace : list Event;
  le_script : list RoundTrip;
  le_result : Response + error
}.

(** The [for] loop of [doGetHeaders]; the round trips come from the
    script, one per attempt. *)
Fixpoint retry_loop `{EncodingJSON} `{Fmt} `{Strconv} `{Runtime}
    (body : option string) (script : list RoundTrip)
    (retries_left attempts_made : Z) (tr : list Event) {struct script}
    : run LoopExit :=
  match script with
  | [] => Starved
  | rt :: script' =>
      let attempts_made := int_add attempts_made 1 in
      let tr := tr ++ [EvSend body] in
      match rt with
      | inr e => Done (mkLoopExit attempts_made tr script' (inr (OtherError e)))
      | inl resp =>
          match CheckResponseError resp with
          | Panics => Panicked
          | Returns None =>
              Done (mkLoopExit attempts_made tr script' (inl resp))
          | Returns (Some respErr) =>
              if retries_left <=? 1
              then Done (mkLoopExit attempts_made tr script' (inr respErr))
              else
                match respErr with
                | RateLimitError _ RetryAfter =>
                    let wait := int_mul RetryAfter Second in
                    retry_loop body script' (int_sub retries_left 1)
                      attempts_made (tr ++ [EvTimeSleep wait])
                | _ =>
                    if StatusCode resp =? StatusServiceUnavailable
                    then retry_loop body script' (int_sub retries_left 1)
                           attempts_made tr
                    else Done (mkLoopExit attempts_made tr script'
                                 (inr respErr))
                end
          end
      end
  end.

(** No call of the client's delay function among the events. *)
Definition no_client_sleep (evs : list Event) : Prop :=
  ∀ d, EvClientSleep d ∉ evs.

(** The loop ended on the round trip [rt], the last one it took off the
    script: it broke out with the response [rt], or returned the
    transport error [rt], or returned the error the classifier gave for
    the response [rt]. *)
Definition ended_on `{EncodingJSON} `{Fmt} `{Strconv} `{Runtime}
    (rt : RoundTrip) (result : Response + error) : Prop :=
  match result with
  | inl resp => rt = inl resp ∧ CheckResponseError resp = Returns None
  | inr err =>
      (∃ e, rt = inr e ∧ err = OtherError e) ∨
      (∃ resp, rt = inl resp ∧ CheckResponseError resp = Returns (Some err))
  end.

(** The run of the loop from the script [script] and the events [tr]
    to the exit [ex]: the round trips it consumed, the last of which
    decided the result, and the events it added. *)
Definition loop_run `{EncodingJSON} `{Fmt} `{Strconv} `{Runtime}
    (script : list RoundTrip) (tr : list Event) (ex : LoopExit) : Prop :=
  ∃ (consumed : list RoundTrip) (rt : RoundTrip) (evs : list Event),
    script = consumed ++ rt :: le_script ex ∧
    le_trace ex = tr ++ evs ∧ no_client_sleep evs ∧
    ended_on rt (le_result ex).

(** The rate-limit state after a response with the headers [h]: the
    call-limit header sets the counters when it has the shape [N/M], the
    retry-after header always sets the seconds. *)
Definition updateRateLimits `{Strconv} (rl : RateLimitInfo.t)
    (h : gmap string string) : RateLimitInfo.t :=
  let s := Split (Header_Get h "X-Shopify-Shop-Api-Call-Limit") "/" in
  let rl1 :=
    match s with
    | [s0; s1] =>
        RateLimitInfo.mk (fst (Atoi s0)) (fst (Atoi s1))
          (RateLimitInfo.GraphQLCost rl) (RateLimitInfo.RetryAfterSeconds rl)
    | _ => rl
    end in
  RateLimitInfo.mk (RateLimitInfo.RequestCount rl1)
    (RateLimitInfo.BucketSize rl1) (RateLimitInfo.GraphQLCost rl1)
    (fst (ParseFloat (Header_Get h "Retry-After"))).

(** How [doGetHeaders] ends: the client, the events, the round trips
    left, the value [v] points to, and the headers or the error. *)
Record DoExit (V : Type) := mkDoExit {
  de_client : Client;
  de_trace : list Event;
  de_script : list RoundTrip;
  de_v : option V;
  de_result : gmap string string + error
}.
Arguments mkDoExit {V}.
Arguments de_client {V}.
Arguments de_trace {V}.
Arguments de_script {V}.
Arguments de_v {V}.
Arguments de_result {V}.

(** [doGetHeaders]: [body] is the request body as buffered before the
    loop ([None] for a nil body), [v] the value to decode into ([None]
    for a nil pointer), [Decode bytes v] what
    [json.NewDecoder(resp.Body).Decode(&v)] leaves in it, with the
    decoder's error if any.  Logging is left out. *)
Definition doGetHeaders `{EncodingJSON} `{Fmt} `{Strconv} `{Runtime} {V : Type}
    (Decode : string → V → V * option string)
    (c : Client) (script : list RoundTrip) (tr : list Event)
    (body : option string) (v : option V) : run (DoExit V) :=
  let c := set_attempts c 0 in
  match retry_loop body script (retries c) 0 tr with
  | Panicked => Panicked
  | Starved => Starved
  | OutOfFuel => OutOfFuel
  | Done (mkLoopExit n tr' script' (inr err)) =>
      Done (mkDoExit (set_attempts c n) tr' script' v (inr err))
  | Done (mkLoopExit n tr' script' (inl resp)) =>
      let c := set_attempts c n in
      let c :=
        if decide (apiVersion c = defaultApiVersion ∧
                   Header_Get (Header resp) "X-Shopify-API-Version" ≠ "")
        then set_apiVersion c (Header_Get (Header resp) "X-Shopify-API-Version")
        else c in
      let decoded :=
        match v with
        | None => (None, None)
        | Some x =>
            match RespBody resp with
            | inr e => (Some x, Some e)
            | inl bytes =>
                let '(x', err) := Decode bytes x in (Some x', err)
            end
        end in
      match decoded with
      | (v', Some e) => Done (mkDoExit c tr' script' v' (inr (OtherError e)))
      | (v', None) =>
          Done (mkDoExit (set_RateLimits c
                            (updateRateLimits (RateLimits c) (Header resp)))
                  tr' script' v' (inl (Header resp)))
      end
  end.

(** [Post], through [CreateAndDo] and [createAndDoGetHeaders]: the
    request is built first, and building it fails, before anything is
    sent and without touching the client, when the body cannot be
    encoded; [marshalled] is what [json.Marshal(data)] gives. *)
Definition Post `{EncodingJSON} `{Fmt} `{Strconv} `{Runtime} {V : Type}
    (Decode : string → V → V * option string)
    (c : Client) (script : list RoundTrip) (tr : list Event)
    (marshalled : string + string) (resource : option V) : run (DoExit V) :=
  match marshalled with
  | inr e => Done (mkDoExit c tr script resource (inr (OtherError e)))
  | inl js => doGetHeaders Decode c script tr (Some js) resource
  end.

(** ** The GraphQL cost-aware retry loop *)

Record graphQLErrorExtension := mkGraphQLErrorExtension {
  Code : string;
  Documentation : string
}.

Record graphQLErrorLocation := mkGraphQLErrorLocation {
  Line : Z;
  Column : Z
}.

Record graphQLError := mkGraphQLError {
  ge_Message : string;
  ge_Extensions : option graphQLErrorExtension;
  ge_Locations : list graphQLErrorLocation
}.

Record graphQLExtension := mkGraphQLExtension {
  Cost : GraphQLCost
}.

Record graphQLResponse (D : Type) := mkGraphQLResponse {
  gr_Data : D;
  gr_Errors : list graphQLError;
  gr_Extensions : option graphQLExtension
}.
Arguments mkGraphQLResponse {D}.
Arguments gr_Data {D}.
Arguments gr_Errors {D}.
Arguments gr_Extensions {D}.

Definition graphQLErrorCodeThrottled : string := "THROTTLED".

(** The condition [err.Extensions != nil && err.Extensions.Code ==
    graphQLErrorCodeThrottled]. *)
Definition throttled (err : graphQLError) : bool :=
  match ge_Extensions err with
  | Some ext => bool_decide (Code ext = graphQLErrorCodeThrottled)
  | None => false
  end.

(** The loop over [gr.Errors]: it returns the rate-limit error from
    inside the loop, or runs to the end with the messages gathered and
    the retry flag. *)
Fixpoint scan_errors `{Runtime} (errs : list graphQLError)
    (attempts_total retries_limit : Z) (ra : float64)
    (re : ResponseError) (doRetry : bool) : error + ResponseError * bool :=
  match errs with
  | [] => inr (re, doRetry)
  | err :: rest =>
      let appended :=
        mkResponseError (Status re) (Message re) (Errors re ++ [ge_Message err]) in
      if throttled err then
        if retries_limit <=? attempts_total
        then inl (RateLimitError
                    (mkResponseError 200 (ge_Message err) []) (int_of_f64 ra))
        else scan_errors rest attempts_total retries_limit ra appended true
      else scan_errors rest attempts_total retries_limit ra appended doRetry
  end.

(** The suggested wait of a round of [Query]: that of the cost
    extensions when the response has them, the zero value otherwise. *)
Definition round_wait {D : Type} (gr : graphQLResponse D) : float64 :=
  match gr_Extensions gr with
  | Some ext => RetryAfterSeconds (Cost ext)
  | None => f64_zero
  end.

(** The client after the bookkeeping of a round of [Query]: the
    attempts accumulated, and the cost snapshot and the suggested wait
    when the response has cost extensions. *)
Definition client_after_round {D : Type} (c : Client) (total : Z)
    (gr : graphQLResponse D) : Client :=
  let c1 := set_attempts c total in
  match gr_Extensions gr with
  | Some ext =>
      set_RateLimits c1
        (RateLimitInfo.mk (RateLimitInfo.RequestCount (RateLimits c1))
           (RateLimitInfo.BucketSize (RateLimits c1))
           (Some (Cost ext)) (RetryAfterSeconds (Cost ext)))
  | None => c1
  end.

(** How [Query] ends: the client, the events, the round trips left, the
    data decoded into [resp], and the error returned ([None] for nil). *)
Record QueryExit (D : Type) := mkQueryExit {
  qe_client : Client;
  qe_trace : list Event;
  qe_script : list RoundTrip;
  qe_resp : D;
  qe_err : option error
}.
Arguments mkQueryExit {D}.
Arguments qe_client {D}.
Arguments qe_trace {D}.
Arguments qe_script {D}.
Arguments qe_resp {D}.
Arguments qe_err {D}.

(** The [for] loop of [Query], one unit of fuel per round.  A call of
    the client's delay function [s.client.sleep] is the event
    [EvClientSleep]. *)
Fixpoint Query_loop `{EncodingJSON} `{Fmt} `{Strconv} `{Runtime} {D : Type}
    (Decode : string → graphQLResponse D → graphQLResponse D * option string)
    (fuel : nat) (marshalled : string + string)
    (c : Client) (script : list RoundTrip) (tr : list Event)
    (attempts_total : Z) (resp : D) : run (QueryExit D) :=
  match fuel with
  | O => OutOfFuel
  | S fuel' =>
      let gr0 := mkGraphQLResponse resp [] None in
      match Post Decode c script tr marshalled (Some gr0) with
      | Panicked => Panicked
      | Starved => Starved
      | OutOfFuel => OutOfFuel
      | Done ex =>
          let gr := default gr0 (de_v ex) in
          let err :=
            match de_result ex with inl _ => None | inr e => Some e end in
          let attempts_total := int_add attempts_total (attempts (de_client ex)) in
          let ra := round_wait gr in
          let c2 := client_after_round (de_client ex) attempts_total gr in
          match gr_Errors gr with
          | [] =>
              Done (mkQueryExit c2 (de_trace ex) (de_script ex) (gr_Data gr) err)
          | _ :: _ =>
              match scan_errors (gr_Errors gr) attempts_total (retries c2) ra
                      (mkResponseError 200 "" []) false with
              | inl rateLimitErr =>
                  Done (mkQueryExit c2 (de_trace ex) (de_script ex)
                          (gr_Data gr) (Some rateLimitErr))
              | inr (re, true) =>
                  let wait := int_mul (int_of_f64 ra) Second in
                  Query_loop Decode fuel' marshalled c2 (de_script ex)
                    (de_trace ex ++ [EvClientSleep wait])
                    attempts_total (gr_Data gr)
              | inr (re, false) =>
                  Done (mkQueryExit c2 (de_trace ex) (de_script ex)
                          (gr_Data gr) (Some (ResponseError_ re)))
              end
          end
      end
  end.

(** [func (s *GraphQLServiceOp) Query(q, vars, resp) error]. *)
Definition Query `{EncodingJSON} `{Fmt} `{Strconv} `{Runtime} {D : Type}
    (Decode : string → graphQLResponse D → graphQLResponse D * option string)
    (fuel : nat) (marshalled : string + string)
    (c : Client) (script : list RoundTrip) (tr : list Event) (resp : D)
    : run (QueryExit D) :=
  Query_loop Decode fuel marshalled c script tr 0 resp.

(** ** net/url *)

(** [url.Values], a map from keys to lists of values. *)
Abbreviation Values := (gmap string (list string)).

(** [func (v Values) Get(key string) string]: the first value of the
    key, or the empty string. *)
Definition Values_Get (v : Values) (key : string) : string :=
  match v !! key with
  | Some (x :: _) => x
  | _ => ""
  end.

(** [func (v Values) Add(key, value string)]. *)
Definition Values_Add (v : Values) (key value : string) : Values :=
  <[key := default [] (v !! key) ++ [value]]> v.

Definition is_unreserved (c : ascii) : bool :=
  let n := Z.of_N (N_of_ascii c) in
  ((48 <=? n) && (n <=? 57)) || ((65 <=? n) && (n <=? 90))
  || ((97 <=? n) && (n <=? 122))
  || Ascii.eqb c "-" || Ascii.eqb c "_" || Ascii.eqb c "." || Ascii.eqb c "~".

Definition upperhex (n : N) : ascii :=
  ascii_of_N (if (n <? 10)%N then 48 + n else 55 + n)%N.

(** [url.QueryEscape]: unreserved bytes stay, a space becomes a plus
    sign, every other byte is percent-encoded. *)
Fixpoint QueryEscape (s : string) : string :=
  match s with
  | EmptyString => EmptyString
  | String c s' =>
      if is_unreserved c then String c (QueryEscape s')
      else if Ascii.eqb c " " then String "+" (QueryEscape s')
      else
        let n := N_of_ascii c in
        String "%" (String (upperhex (n / 16)) (String (upperhex (n mod 16))
          (QueryEscape s')))
  end.

(** The key-value pairs [Encode] writes, in the order it writes them:
    the keys sorted, the values of a key in their order. *)
Definition Encode_pairs `{Runtime} (v : Values) : list (string * string) :=
  let keys := sort_Strings (map fst (map_range v)) in
  flat_map (λ k, map (pair k) (default [] (v !! k))) keys.

(** [func (v Values) Encode() string]. *)
Definition Values_Encode `{Runtime} (v : Values) : string :=
  Join (map (λ kv, QueryEscape (fst kv) +:+ "=" +:+ QueryEscape (snd kv))
          (Encode_pairs v)) "&".

(** [url.URL], the fields the engine reads and writes. *)
Record URL := mkURL {
  Scheme : string;
  Host : string;
  Path : string;
  RawQuery : string
}.

(** [net/url]: [url.Parse], [URL.ResolveReference] and
    [url.ParseQuery]; the last returns the values it could parse together
    with the first error it met. *)
Class NetURL := {
  url_Parse : string → URL + string;
  url_ResolveReference : URL → URL → URL;
  url_ParseQuery : string → Values * option string
}.

(** [URL.Query]: [ParseQuery] with the error dropped. *)
Definition URL_Query `{NetURL} (u : URL) : Values := fst (url_ParseQuery (RawQuery u)).

(** ** The request builder *)

(** The loop of [NewRequest] that adds the query parameters of the path
    to the encoded options, over the entries in the order the runtime
    ranges over them. *)
Definition add_path_values (optionsQuery : Values)
    (entries : list (string * list string)) : Values :=
  fold_left (λ acc kvs, fold_left (λ acc' v, Values_Add acc' (fst kvs) v)
                          (snd kvs) acc)
    entries optionsQuery.

(** [http.Request], as [NewRequest] fills it. *)
Record Request := mkRequest {
  Method : string;
  ReqURL : URL;
  ReqBody : string;
  ReqHeader : list (string * string);
  BasicAuth : option (string * string)
}.

Definition UserAgent : string := "goshopify/1.0.0".

(** What [NewRequest] reads of the client and its [App]. *)
Record Credentials := mkCredentials {
  baseURL : URL;
  token : string;
  app_ApiKey : string;
  app_Password : string
}.

(** [NewRequest].  [options] is [None] for nil and otherwise what
    [query.Values(options)] gives; [body] is [None] for nil and
    otherwise what [json.Marshal(body)] gives.  The final
    [http.NewRequest] re-parses the URL just built and checks the method;
    the request is taken to carry that URL. *)
Definition NewRequest `{NetURL} `{Runtime} (cr : Credentials)
    (method relPath : string) (body : option (string + string))
    (options : option (Values + string)) : Request + error :=
  match url_Parse relPath with
  | inr e => inr (OtherError e)
  | inl rel =>
      let u := url_ResolveReference (baseURL cr) rel in
      let u_or_err :=
        match options with
        | None => inl u
        | Some (inr e) => inr (OtherError e)
        | Some (inl optionsQuery) =>
            let merged := add_path_values optionsQuery (map_range (URL_Query u)) in
            inl (mkURL (Scheme u) (Host u) (Path u) (Values_Encode merged))
        end in
      match u_or_err with
      | inr e => inr e
      | inl u =>
          let js_or_err :=
            match body with
            | None => inl EmptyString
            | Some (inl js) => inl js
            | Some (inr e) => inr (OtherError e)
            end in
          match js_or_err with
          | inr e => inr e
          | inl js =>
              let hdr := [("Content-Type", "application/json");
                          ("Accept", "application/json");
                          ("User-Agent", UserAgent)] in
              if decide (token cr ≠ "") then
                inl (mkRequest method u js
                       (hdr ++ [("X-Shopify-Access-Token", token cr)]) None)
              else if decide (app_Password cr ≠ "") then
                inl (mkRequest method u js hdr
                       (Some (app_ApiKey cr, app_Password cr)))
              else inl (mkRequest method u js hdr None)
          end
      end
  end.

(** ** The pagination extractor *)

(** [ListOptions], without its four [time.Time] bounds, which the
    extractor leaves at their zero values. *)
Record ListOptions := mkListOptions {
  PageInfo : string;
  Page : Z;
  Limit : Z;
  SinceId : option Z;
  Order : string;
  Fields : string;
  Vendor : string;
  Ids : list Z
}.

Definition ListOptions_zero : ListOptions :=
  mkListOptions "" 0 0 None "" "" "" [].

(** Modelled from the spec: the type [Pagination] is declared outside
    the files at hand; it holds the options of the next and of the
    previous page, each a pointer that may be nil. *)
Record Pagination := mkPagination {
  NextPageOptions : option ListOptions;
  PreviousPageOptions : option ListOptions
}.

Fixpoint skip_spaces (s : string) : string :=
  match s with
  | String " " s' => skip_spaces s'
  | _ => s
  end.

Fixpoint all_spaces (s : string) : bool :=
  match s with
  | EmptyString => true
  | String c s' => Ascii.eqb c " " && all_spaces s'
  end.

(** The longest prefix without the byte [c], and what follows it. *)
Fixpoint span_until (c : ascii) (s : string) : string * string :=
  match s with
  | EmptyString => (EmptyString, EmptyString)
  | String a s' =>
      if Ascii.eqb a c then (EmptyString, s)
      else let '(p, r) := span_until c s' in (String a p, r)
  end.

(** [s] without the prefix [p], when it starts with it. *)
Fixpoint strip_prefix (p s : string) : option string :=
  match p, s with
  | EmptyString, _ => Some s
  | String a p', String b s' =>
      if Ascii.eqb a b then strip_prefix p' s' else None
  | String _ _, EmptyString => None
  end.

(** Modelled from the spec: the pattern [linkRegex] is declared outside
    the files at hand.  An entry has the shape [<URL>; rel="previous"]
    or [<URL>; rel="next"], with a non-empty URL free of [>], and may
    be padded with spaces on both sides (the entries after the first of
    a header follow a comma and a space).  [FindStringSubmatch] gives
    nil when the entry does not match, and otherwise the match, the URL
    and the relation. *)
Definition linkRegex_FindStringSubmatch (link : string) : list string :=
  match strip_prefix "<" (skip_spaces link) with
  | None => []
  | Some s1 =>
      match span_until ">" s1 with
      | (EmptyString, _) => []
      | (url, s2) =>
          match strip_prefix (">; rel=" +:+ String dquote EmptyString) s2 with
          | None => []
          | Some s3 =>
              let finish (rel s4 : string) :=
                match strip_prefix (String dquote EmptyString) s4 with
                | Some s5 => if all_spaces s5 then [link; url; rel] else []
                | None => []
                end in
              match strip_prefix "previous" s3 with
              | Some s4 => finish "previous" s4
              | None =>
                  match strip_prefix "next" s3 with
                  | Some s4 => finish "next" s4
                  | None => []
                  end
              end
          end
      end
  end.

(** The body of the loop of [extractPagination] for one entry. *)
Definition extract_link `{NetURL} (link : string) (pagination : Pagination)
    : Pagination + error :=
  match linkRegex_FindStringSubmatch link with
  | [_; match1; match2] =>
      match url_Parse match1 with
      | inr _ =>
          inr (ResponseDecodingError "" "pagination does not contain a valid URL" 0)
      | inl rel =>
          match url_ParseQuery (RawQuery rel) with
          | (_, Some e) => inr (OtherError e)
          | (params, None) =>
              let pageInfo := Values_Get params "page_info" in
              if decide (pageInfo = "") then
                inr (ResponseDecodingError "" "page_info is missing" 0)
              else
                let limit := Values_Get params "limit" in
                let limit_or_err :=
                  if decide (limit ≠ "") then
                    match Atoi (Values_Get params "limit") with
                    | (_, Some err) => inr err
                    | (n, None) => inl n
                    end
                  else inl 0 in
                match limit_or_err with
                | inr err => inr err
                | inl n =>
                    let paginationListOptions :=
                      mkListOptions pageInfo 0 n None "" "" "" [] in
                    if decide (match2 = "next") then
                      inl (mkPagination (Some paginationListOptions)
                             (PreviousPageOptions pagination))
                    else
                      inl (mkPagination (NextPageOptions pagination)
                             (Some paginationListOptions))
                end
          end
      end
  | _ =>
      inr (ResponseDecodingError "" "could not extract pagination link header" 0)
  end.

(** The loop of [extractPagination] over the entries of the header. *)
Fixpoint extract_links `{NetURL} (links : list string) (pagination : Pagination)
    : Pagination + error :=
  match links with
  | [] => inl pagination
  | link :: rest =>
      match extract_link link pagination with
      | inr err => inr err
      | inl pagination' => extract_links rest pagination'
      end
  end.

(** [extractPagination]: the pagination, or the error (with a nil
    pagination). *)
Definition extractPagination `{NetURL} (linkHeader : string)
    : Pagination + error :=
  let pagination := mkPagination None None in
  if decide (linkHeader = "") then inl pagination
  else extract_links (Split linkHeader ",") pagination.

(** ** Reference instances

    Concrete libraries and a concrete runtime, on which the definitions
    above evaluate.  The theorems below hold for every instance. *)

(** A runtime that ranges over a map in the order of [map_to_list] and
    gives the least integer for an unrepresentable float (as the amd64
    conversion instruction does). *)
#[local] Instance runtime_ref : Runtime := {|
  float_to_int_unrepresentable := λ _, MinInt64;
  map_range := λ V m, map_to_list m;
  map_range_perm := λ V m, reflexivity (map_to_list m)
|}.

(** A runtime that ranges over a map in the opposite order. *)
Definition runtime_rev : Runtime := {|
  float_to_int_unrepresentable := λ _, MinInt64;
  map_range := λ V m, reverse (map_to_list m);
  map_range_perm := λ V m, reverse_Permutation (map_to_list m)
|}.

(** [ParseFloat] on unsigned decimal integers of up to fifteen digits
    (which convert exactly); everything else is reported as an error. *)
#[local] Instance strconv_ref : Strconv := {|
  ParseFloat := λ s,
    match s with
    | EmptyString => (f64_zero, true)
    | _ =>
        match parse_digits s 0 with
        | Some n =>
            if (String.length s <=? 15)%nat then (f64_of_int n, false)
            else (f64_zero, true)
        | None => (f64_zero, true)
        end
    end
|}.

(** [%v] of nil and of booleans; the other values do not occur in the
    examples. *)
#[local] Instance fmt_ref : Fmt := {|
  format_nonstring := λ v,
    match v with
    | GoNil => "<nil>"
    | GoBool true => "true"
    | GoBool false => "false"
    | _ => EmptyString
    end
|}.

Definition quoted (s : string) : string :=
  String dquote (s +:+ String dquote EmptyString).

(** The JSON text of an object with the single field [errors]. *)
Definition errors_document (value : string) : string :=
  "{" +:+ quoted "errors" +:+ ":" +:+ value +:+ "}".

(** An array of two strings. *)
Definition body_array : string :=
  errors_document ("[" +:+ quoted "a" +:+ "," +:+ quoted "b" +:+ "]").

(** An object with two keys, each with an array of strings. *)
Definition body_map : string :=
  errors_document
    ("{" +:+ quoted "title" +:+ ":[" +:+ quoted "x" +:+ "," +:+ quoted "y" +:+ "],"
     +:+ quoted "order" +:+ ":[" +:+ quoted "z" +:+ "]}").

(** The decoder on the documents above, as [encoding/json] reads them,
    and on a text that is not JSON. *)
#[local] Instance json_ref : EncodingJSON := {|
  Unmarshal_shopifyError := λ body,
    if decide (body = body_array) then
      inl (EmptyString, GoSlice [GoString "a"; GoString "b"])
    else if decide (body = body_map) then
      inl (EmptyString,
           GoMap (<["title" := GoSlice [GoString "x"; GoString "y"]]>
                  (<["order" := GoSlice [GoString "z"]]> ∅)))
    else if decide (body = "{}") then inl (EmptyString, GoNil)
    else inr "invalid character"
|}.

(** [net/url] on URLs and queries without escapes, fragments or
    semicolons: a URL that starts with a colon has no protocol scheme
    and is refused; the query is what follows the first question mark,
    its pairs are separated by ampersands, key and value by the first
    equals sign. *)
Definition simple_Parse (s : string) : URL + string :=
  match s with
  | String ":" _ => inr "missing protocol scheme"
  | _ =>
      let '(p, r) := span_until "?" s in
      inl (mkURL EmptyString EmptyString p
             (match r with String _ q => q | EmptyString => EmptyString end))
  end.

Definition simple_ParseQuery (q : string) : Values * option string :=
  (fold_left
     (λ (acc : Values) (pair : string),
        if decide (pair = "") then acc
        else
          let '(k, r) := span_until "=" pair in
          Values_Add acc k
            (match r with String _ v => v | EmptyString => EmptyString end))
     (Split q "&") ∅, None).

#[local] Instance neturl_ref : NetURL := {|
  url_Parse := simple_Parse;
  url_ResolveReference := λ base ref,
    mkURL (Scheme base) (Host base) (Path base +:+ Path ref) (RawQuery ref);
  url_ParseQuery := simple_ParseQuery
|}.

(** A client with the given retry budget and a blank rate-limit state. *)
Definition client0 (budget : Z) : Client :=
  mkClient "admin" "stable" budget 0 (RateLimitInfo.mk 0 0 None f64_zero).

(** A 429 with an empty body, a retry-after of 2 seconds and a full
    bucket. *)
Definition resp_429 : Response :=
  mkResponse 429
    (<["Retry-After" := "2"]>
       (<["X-Shopify-Shop-Api-Call-Limit" := "40/40"]> ∅))
    (inl EmptyString).

(** A 200 with an empty JSON object. *)
Definition resp_200 : Response :=
  mkResponse 200 (<["X-Shopify-Shop-Api-Call-Limit" := "1/40"]> ∅) (inl "{}").

(** A 503 with an empty body. *)
Definition resp_503 : Response := mkResponse 503 ∅ (inl EmptyString).

(** A decoder for calls that ask for no result. *)
Definition no_decode (bytes : string) (v : unit) : unit * option string :=
  (v, None).

(** The error is a [RateLimitError]. *)
Definition is_RateLimitError (err : error) : bool :=
  match err with
  | RateLimitError _ _ => true
  | _ => false
  end.

(** The seconds a [RateLimitError] carries (0 for the other errors). *)
Definition RetryAfter_of (err : error) : Z :=
  match err with
  | RateLimitError _ ra => ra
  | _ => 0
  end.

(** The message of the first throttled error of a list. *)
Fixpoint first_throttled (errs : list graphQLError) : string :=
  match errs with
  | [] => EmptyString
  | err :: rest =>
      if throttled err then ge_Message err else first_throttled rest
  end.

(** A throttled query error and a plain one. *)
Definition throttled_error : graphQLError :=
  mkGraphQLError "Throttled"
    (Some (mkGraphQLErrorExtension "THROTTLED" EmptyString)) [].

Definition plain_error : graphQLError :=
  mkGraphQLError "Field does not exist" None [].

(** The throttle status of the specification's example: 100 points
    available of 1000, restored at 50 per second. *)
Definition throttle_100_50 : GraphQLThrottleStatus :=
  mkGraphQLThrottleStatus (f64_of_int 1000) (f64_of_int 100) (f64_of_int 50).

(** A decoder of GraphQL responses for three bodies: a throttled
    response with a requested cost of 200, a throttled response with a
    requested cost of 125, and a response with a throttled and a plain
    error and no cost; every other body is a response without errors. *)
Definition decode_graphql (bytes : string) (gr : graphQLResponse unit)
    : graphQLResponse unit * option string :=
  if decide (bytes = "throttled 200") then
    (mkGraphQLResponse tt [throttled_error]
       (Some (mkGraphQLExtension (mkGraphQLCost 200 None throttle_100_50))),
     None)
  else if decide (bytes = "throttled 125") then
    (mkGraphQLResponse tt [plain_error; throttled_error]
       (Some (mkGraphQLExtension (mkGraphQLCost 125 None throttle_100_50))),
     None)
  else if decide (bytes = "rejected") then
    (mkGraphQLResponse tt [plain_error; plain_error] None, None)
  else (mkGraphQLResponse tt [] None, None).

Definition resp_graphql (bytes : string) : Response :=
  mkResponse 200 ∅ (inl bytes).

(** The entry is a link with the relation [next]. *)
Definition is_next_link (link : string) : bool :=
  match linkRegex_FindStringSubmatch link with
  | [_; _; rel] => bool_decide (rel = "next")
  | _ => false
  end.

(** The header has a link with the relation [next] among its entries. *)
Definition has_next_relation (linkHeader : string) : bool :=
  existsb is_next_link (Split linkHeader ",").

(** The entry does not match the pattern of a link. *)
Definition no_match (link : string) : Prop :=
  length (linkRegex_FindStringSubmatch link) ≠ 3%nat.

(** The text of a link entry: the URL in angle brackets and the
    relation in double quotes. *)
Definition link_entry (url rel : string) : string :=
  "<" +:+ url +:+ ">; rel=" +:+ quoted rel.

(** The values of a key, none when the key is absent. *)
Definition values_of (v : Values) (key : string) : list string :=
  default [] (v !! key).

(** The values written for a key among encoded pairs, in their order. *)
Definition written_for (key : string) (pairs : list (string * string))
    : list string :=
  map snd (filter (λ kv, kv.1 = key) pairs).

(** A client's credentials with an access token, and a base URL. *)
Definition credentials0 : Credentials :=
  mkCredentials (mkURL "https" "fooshop.myshopify.com" "/" EmptyString)
    "abcd" EmptyString EmptyString.

(** The encoded options [limit=2] and [fields=id]. *)
Definition options_limit_fields : Values :=
  <["limit" := ["2"]]> (<["fields" := ["id"]]> ∅).

(** ** The rest of the engine: errors as strings, options, paths and the
    calls built on [doGetHeaders] *)

(** The [Error] method of the three error types of the package:
    [ResponseError.Error], [ResponseDecodingError.Error] (its message)
    and, for a [RateLimitError], the method of the [ResponseError] it
    embeds.  The errors of the standard library render themselves. *)
Definition Error_string (err : error) : option string :=
  match err with
  | ResponseError_ e => Some (ResponseError_Error e)
  | ResponseDecodingError _ msg _ => Some msg
  | RateLimitError e _ => Some (ResponseError_Error e)
  | NumError _ _ _ | OtherError _ => None
  end.

(** The requests sent and the calls of [time.Sleep] and of the client's
    delay function among events. *)
Definition sends (evs : list Event) : list (option string) :=
  omap (λ ev, match ev with EvSend b => Some b | _ => None end) evs.

Definition time_sleeps (evs : list Event) : list Z :=
  omap (λ ev, match ev with EvTimeSleep d => Some d | _ => None end) evs.

Definition client_sleeps (evs : list Event) : list Z :=
  omap (λ ev, match ev with EvClientSleep d => Some d | _ => None end) evs.

(** A value of type [int]. *)
Definition is_int (z : Z) : Prop := MinInt64 ≤ z ≤ MaxInt64.

(** *** Options *)

Definition defaultApiPathPrefix : string := "admin".
Definition UnstableApiVersion : string := "unstable".

Definition is_digit (c : ascii) : bool :=
  let n := Z.of_N (N_of_ascii c) in (48 <=? n) && (n <=? 57).

(** [apiVersionRegex.MatchString]: four digits, a dash, two digits, and
    nothing else. *)
Definition apiVersionRegex_MatchString (s : string) : bool :=
  match s with
  | String y1 (String y2 (String y3 (String y4 (String "-"
      (String m1 (String m2 EmptyString)))))) =>
      is_digit y1 && is_digit y2 && is_digit y3 && is_digit y4
      && is_digit m1 && is_digit m2
  | _ => false
  end.

(** [WithVersion]: the prefix carries the version only when the version
    is well formed or is the unstable one; the version itself is always
    recorded. *)
Definition WithVersion (version : string) (c : Client) : Client :=
  let prefix :=
    if (0 <? Z.of_nat (String.length version))
       && (apiVersionRegex_MatchString version
           || bool_decide (version = UnstableApiVersion))
    then "admin/api/" +:+ version
    else defaultApiPathPrefix in
  mkClient prefix version (retries c) (attempts c) (RateLimits c).

(** [WithRetry]. *)
Definition WithRetry (budget : Z) (c : Client) : Client :=
  mkClient (pathPrefix c) (apiVersion c) budget (attempts c) (RateLimits c).

(** The fields of the client [NewClient] makes, before and after the
    options are applied in order. *)
Definition NewClient_defaults : Client :=
  mkClient defaultApiPathPrefix defaultApiVersion 0 0
    (RateLimitInfo.mk 0 0 None f64_zero).

Definition NewClient_fields (opts : list (Client → Client)) : Client :=
  fold_left (λ c opt, opt c) opts NewClient_defaults.

(** *** Paths *)

(** [strings.TrimLeft(s, "/")]. *)
Fixpoint TrimLeft_slash (s : string) : string :=
  match s with
  | String "/" s' => TrimLeft_slash s'
  | _ => s
  end.

(** The elements of a cleaned path, from the elements between the
    slashes: empty elements and [.] are dropped, [..] removes the
    element before it when there is one to remove, is dropped at the
    root of a rooted path, and is kept otherwise.  [out] is the cleaned
    path so far, last element first. *)
Fixpoint clean_elements (rooted : bool) (elems out : list string) : list string :=
  match elems with
  | [] => rev out
  | e :: rest =>
      if decide (e = "" ∨ e = ".") then clean_elements rooted rest out
      else if decide (e = "..") then
        match out with
        | top :: out' =>
            if decide (top = "..") then clean_elements rooted rest (e :: out)
            else clean_elements rooted rest out'
        | [] =>
            if rooted then clean_elements rooted rest []
            else clean_elements rooted rest [e]
        end
      else clean_elements rooted rest (e :: out)
  end.

(** [path.Clean]. *)
Definition path_Clean (p : string) : string :=
  match p with
  | EmptyString => "."
  | String c _ =>
      let rooted := Ascii.eqb c "/" in
      let elems := clean_elements rooted (Split p "/") [] in
      if rooted then "/" +:+ Join elems "/"
      else match elems with
           | [] => "."
           | _ => Join elems "/"
           end
  end.

(** [path.Join(a, b)]: the empty elements before the first non-empty
    one are ignored, the rest is joined by slashes and cleaned. *)
Definition path_Join (a b : string) : string :=
  match a, b with
  | EmptyString, EmptyString => EmptyString
  | EmptyString, _ => path_Clean b
  | _, _ => path_Clean (a +:+ "/" +:+ b)
  end.

(** The path [createAndDoGetHeaders] hands to [NewRequest]. *)
Definition request_path (c : Client) (relPath : string) : string :=
  path_Join (pathPrefix c) (TrimLeft_slash relPath).

(** *** Calls *)

(** [createAndDoGetHeaders]: the request is built for the path under
    the prefix of the client; when it cannot be built its error is
    returned and nothing is sent. *)
Definition createAndDoGetHeaders `{EncodingJSON} `{Fmt} `{Strconv} `{Runtime}
    `{NetURL} {V : Type} (Decode : string → V → V * option string)
    (cr : Credentials) (c : Client) (script : list RoundTrip) (tr : list Event)
    (method relPath : string) (data : option (string + string))
    (options : option (Values + string)) (resource : option V)
    : run (DoExit V) :=
  match NewRequest cr method (request_path c relPath) data options with
  | inr e => Done (mkDoExit c tr script resource (inr e))
  | inl req => doGetHeaders Decode c script tr (Some (ReqBody req)) resource
  end.

(** How [ListWithPagination] ends: as the call it makes, with the
    pagination or the error in place of the headers. *)
Record ListExit (V : Type) := mkListExit {
  lw_client : Client;
  lw_trace : list Event;
  lw_script : list RoundTrip;
  lw_v : option V;
  lw_result : Pagination + error
}.
Arguments mkListExit {V}.
Arguments lw_client {V}.
Arguments lw_trace {V}.
Arguments lw_script {V}.
Arguments lw_v {V}.
Arguments lw_result {V}.

(** [ListWithPagination]. *)
Definition ListWithPagination `{EncodingJSON} `{Fmt} `{Strconv} `{Runtime}
    `{NetURL} {V : Type} (Decode : string → V → V * option string)
    (cr : Credentials) (c : Client) (script : list RoundTrip) (tr : list Event)
    (path : string) (resource : option V) (options : option (Values + string))
    : run (ListExit V) :=
  match createAndDoGetHeaders Decode cr c script tr "GET" path None options
          resource with
  | Done ex =>
      Done (mkListExit (de_client ex) (de_trace ex) (de_script ex) (de_v ex)
              match de_result ex with
              | inr err => inr err
              | inl headers => extractPagination (Header_Get headers "Link")
              end)
  | Panicked => Panicked
  | Starved => Starved
  | OutOfFuel => OutOfFuel
  end.

(** The version of the client after a call whose last round trip was
    [rt]: the version header of a response with a status from 200 to
    299 replaces the default version, and nothing else changes it. *)
Definition version_after (c : Client) (rt : RoundTrip) : string :=
  match rt with
  | inl resp =>
      if (StatusOK <=? StatusCode resp)
         && (StatusCode resp <? StatusMultipleChoices)
         && bool_decide (apiVersion c = defaultApiVersion)
         && negb (bool_decide
                    (Header_Get (Header resp) "X-Shopify-API-Version" = ""))
      then Header_Get (Header resp) "X-Shopify-API-Version"
      else apiVersion c
  | inr _ => apiVersion c
  end.

(** A 200 that names the version the server answered with. *)
Definition resp_200_versioned : Response :=
  mkResponse 200 (<["X-Shopify-API-Version" := "2024-01"]> ∅) (inl "{}").

(** A decoder that rejects every body. *)
Definition failing_decode (bytes : string) (v : unit) : unit * option string :=
  (v, Some "unexpected end of JSON input").

(** The entry is a link with the relation [previous]. *)
Definition is_previous_link (link : string) : bool :=
  match linkRegex_FindStringSubmatch link with
  | [_; _; rel] => bool_decide (rel = "previous")
  | _ => false
  end.

(** The cursor one entry of a link header gives when it is processed on
    its own, if it is processed without error. *)
Definition link_cursor `{NetURL} (link : string) : option ListOptions :=
  match extract_link link (mkPagination None None) with
  | inl p =>
      if is_next_link link then NextPageOptions p else PreviousPageOptions p
  | inr _ => None
  end.

(** A cursor as the extractor builds it: a page token that is not
    empty, a limit in the range of [int], and nothing else set. *)
Definition is_cursor (o : ListOptions) : Prop :=
  PageInfo o ≠ "" ∧ is_int (Limit o) ∧
  o = mkListOptions (PageInfo o) 0 (Limit o) None "" "" "" [].

(** A header with a [next] and a [previous] entry. *)
Definition header_next_previous : string :=
  link_entry "http://valid.url?page_info=foo&limit=2" "next" +:+ ", " +:+
  link_entry "http://valid.url?page_info=bar" "previous".

(** A header that names the relation [next] twice. *)
Definition header_two_next : string :=
  link_entry "http://valid.url?page_info=foo" "next" +:+ ", " +:+
  link_entry "http://valid.url?page_info=bar&limit=5" "next".

(** A GraphQL exchange: a throttled answer, then a 503, then an answer
    without errors. *)
Definition script_throttled_503_ok : list RoundTrip :=
  [inl (resp_graphql "throttled 200"); inl resp_503; inl (resp_graphql "ok")].

(** The versions [WithVersion] puts into the path prefix. *)
Definition valid_version (version : string) : bool :=
  apiVersionRegex_MatchString version
  || bool_decide (version = UnstableApiVersion).

(** The elements of a relative path that cleaning keeps when none of
    them is [..]: those that are neither empty nor [.]. *)
Definition kept_elements (relPath : string) : list string :=
  filter (λ e, ¬ (e = "" ∨ e = ".")) (Split relPath "/").

(** The elements joined by slashes, each after a slash. *)
Definition path_suffix (elems : list string) : string :=
  match elems with
  | [] => ""
  | _ => "/" +:+ Join elems "/"
  end.

(** How [Count] ends: as the call it makes, with the count and the
    error ([None] for nil) it returns. *)
Record CountExit := mkCountExit {
  ct_client : Client;
  ct_trace : list Event;
  ct_script : list RoundTrip;
  ct_count : Z;
  ct_err : option error
}.

(** [Count], through [Get] and [CreateAndDo]: the resource is a struct
    with the one field [Count], zero before the call; the count is
    returned as the call leaves it, whether or not the call failed. *)
Definition Count `{EncodingJSON} `{Fmt} `{Strconv} `{Runtime} `{NetURL}
    (Decode : string → Z → Z * option string)
    (cr : Credentials) (c : Client) (script : list RoundTrip) (tr : list Event)
    (path : string) (options : option (Values + string)) : run CountExit :=
  match createAndDoGetHeaders Decode cr c script tr "GET" path None options
          (Some 0) with
  | Done ex =>
      Done (mkCountExit (de_client ex) (de_trace ex) (de_script ex)
              (default 0 (de_v ex))
              match de_result ex with inl _ => None | inr e => Some e end)
  | Panicked => Panicked
  | Starved => Starved
  | OutOfFuel => OutOfFuel
  end.

(** An error classified from a response of the API, as against one of
    the transport, of a decoder or of building the request. *)
Definition is_api_error (err : error) : bool :=
  match err with
  | ResponseError_ _ | RateLimitError _ _ | ResponseDecodingError _ _ _ => true
  | NumError _ _ _ | OtherError _ => false
  end.

(** A decoder of counts for the bodies of the examples. *)
Definition decode_count (bytes : string) (n : Z) : Z * option string :=
  if decide (bytes = "{}") then (n, None)
  else (7, Some "unexpected end of JSON input").

(** A 200 whose [Link] header names the next page. *)
Definition resp_200_linked : Response :=
  mkResponse 200
    (<["Link" := link_entry "http://valid.url?page_info=foo&limit=2" "next"]> ∅)
    (inl "{}").

(** * Properties *)

(** ** The order on strings and [sort.Strings] *)

Lemma string_le_iff (s1 s2 : string) :
  string_le s1 s2 ↔ s1 = s2 ∨ String.compare s1 s2 = Lt.
Proof.
  unfold string_le, String.leb.
  destruct (String.compare s1 s2) eqn:E.
  - apply String.compare_eq_iff in E. intuition.
  - intuition.
  - split; [discriminate|].
    intros [->|]; [|discriminate].
    pose proof (proj2 (OrderedTypeEx.String_as_OT.cmp_eq s2 s2) eq_refl) as R.
    unfold OrderedTypeEx.String_as_OT.cmp in R. congruence.
Qed.

#[local] Instance string_le_refl : Reflexive string_le.
Proof. intros s. apply string_le_iff. by left. Qed.

#[local] Instance string_le_trans : Transitive string_le.
Proof.
  intros a b c Hab Hbc.
  apply string_le_iff in Hab, Hbc. apply string_le_iff.
  destruct Hab as [->|Hab]; [done|].
  destruct Hbc as [<-|Hbc]; [by right|].
  right. apply OrderedTypeEx.String_as_OT.cmp_lt.
  eapply OrderedTypeEx.String_as_OT.lt_trans;
    by apply OrderedTypeEx.String_as_OT.cmp_lt.
Qed.

#[local] Instance string_le_antisym : AntiSymm (=) string_le.
Proof. intros a b. apply String.leb_antisym. Qed.

#[local] Instance string_le_total : Total string_le.
Proof. intros a b. apply String.leb_total. Qed.

Lemma sort_Strings_sorted (x : list string) : Sorted string_le (sort_Strings x).
Proof. apply (Sorted_merge_sort string_le). Qed.

Lemma sort_Strings_perm (x : list string) : sort_Strings x ≡ₚ x.
Proof. apply merge_sort_Permutation. Qed.

(** Sorting forgets the order of its input. *)
Lemma sort_Strings_invariant (x y : list string) :
  x ≡ₚ y → sort_Strings x = sort_Strings y.
Proof.
  intros Hxy.
  apply (Sorted_unique string_le); auto using sort_Strings_sorted.
  by rewrite !sort_Strings_perm.
Qed.

(** Joining with a non-empty separator gives the empty string only for
    no element and for a single empty one. *)
Lemma Join_comma_empty (l : list string) :
  Join l ", " = "" ↔ l = [] ∨ l = [""].
Proof.
  unfold Join. split.
  - destruct l as [|a [|b l]]; simpl; auto.
    + intros ->. auto.
    + destruct a; discriminate.
  - intros [->| ->]; reflexivity.
Qed.

(** ** [ResponseError.Error] *)

Lemma ResponseError_Error_no_message (e : ResponseError) :
  Message e = "" →
  ResponseError_Error e =
    if decide (Errors e = [] ∨ Errors e = [""]) then "Unknown Error"
    else Join (sort_Strings (Errors e)) ", ".
Proof.
  intros Hm. unfold ResponseError_Error.
  rewrite decide_False by (by intros []).
  assert (Hiff : Join (sort_Strings (Errors e)) ", " = "" ↔
                 (Errors e = [] ∨ Errors e = [""])).
  { rewrite Join_comma_empty. split.
    - intros [E|E].
      + left. apply Permutation_nil_r. rewrite <- E.
        symmetry. apply sort_Strings_perm.
      + right. apply Permutation_singleton_r. rewrite <- E.
        symmetry. apply sort_Strings_perm.
    - intros [E|E]; rewrite E; vm_compute; auto. }
  simpl. repeat case_decide; tauto.
Qed.




(** ** Floating point: negating a difference *)

Lemma SFopp_binary_round_aux (s : bool) (m e : Z) (l : location) :
  SFopp (binary_round_aux prec emax s m e l) =
  binary_round_aux prec emax (negb s) m e l.
Proof.
  unfold binary_round_aux.
  destruct (shr_fexp prec emax m e l) as [mrs' e'].
  destruct (shr_fexp prec emax _ e' loc_Exact) as [mrs'' e''].
  destruct (shr_m mrs''); [reflexivity| |reflexivity].
  by destruct (e'' <=? emax - prec).
Qed.

Lemma SFopp_binary_round (s : bool) (m : positive) (e : Z) :
  SFopp (binary_round prec emax s m e) = binary_round prec emax (negb s) m e.
Proof.
  unfold binary_round.
  destruct (shl_align m e _) as [mz ez].
  apply SFopp_binary_round_aux.
Qed.

Lemma SFopp_binary_normalize (m e : Z) :
  m ≠ 0 →
  SFopp (binary_normalize prec emax m e false) =
  binary_normalize prec emax (- m) e false.
Proof.
  destruct m; [done| |]; intros _; simpl; apply SFopp_binary_round.
Qed.

(** A negative difference, negated, is the difference the other way
    round: rounding to nearest is symmetric. *)
Lemma f64_neg_sub (a b : float64) :
  f64_lt (f64_sub a b) f64_zero = true →
  f64_neg (f64_sub a b) = f64_sub b a.
Proof.
  unfold f64_lt, f64_neg, f64_sub, f64_zero.
  destruct a as [sa|sa| |sa ma ea], b as [sb|sb| |sb mb eb];
    try (destruct sa); try (destruct sb); try (simpl; done).
  all: unfold SFsub; rewrite (Z.min_comm eb ea).
  all: set (ez := Z.min ea eb).
  all: set (X := Z.pos (shl_align ma ea ez).1).
  all: set (Y := Z.pos (shl_align mb eb ez).1).
  all: simpl cond_Zopp.
  all: intros Hlt.
  all: match goal with
       | |- SFopp (binary_normalize _ _ ?M _ _) = binary_normalize _ _ ?N _ _ =>
           replace N with (- M) by lia;
           apply SFopp_binary_normalize;
           intros E; rewrite E in Hlt; discriminate Hlt
       end.
Qed.

(** ** [GraphQLCost.RetryAfterSeconds] *)

(** C3: the suggested wait is [(cost - currentlyAvailable) /
    restoreRate] when [currentlyAvailable - cost] is negative and 0
    otherwise, the cost being the actual cost when present and the
    requested cost otherwise; with 100 available, a restore rate of 50,
    a requested cost of 200 and no actual cost it is exactly 2. *)
Theorem C3_RetryAfterSeconds_formula :
  (∀ c : GraphQLCost,
     let available := CurrentlyAvailable (ThrottleStatus c) in
     let cost := f64_of_int (query_cost c) in
     RetryAfterSeconds c =
       if f64_lt (f64_sub available cost) f64_zero
       then f64_div (f64_sub cost available) (RestoreRate (ThrottleStatus c))
       else f64_zero) ∧
  (∀ maximum : float64,
     RetryAfterSeconds
       (mkGraphQLCost 200 None
          (mkGraphQLThrottleStatus maximum (f64_of_int 100) (f64_of_int 50)))
     = f64_of_int 2).
Proof.
  split.
  - intros c available cost. unfold RetryAfterSeconds, query_cost in *.
    subst available cost.
    destruct (ActualQueryCost c) as [actual|]; simpl;
      (destruct (f64_lt _ f64_zero) eqn:Hlt; [|done]);
      by rewrite (f64_neg_sub _ _ Hlt).
  - intros maximum. vm_compute. reflexivity.
Qed.

(** ** The error classifier *)

Section Classifier.
Context `{EncodingJSON} `{Fmt} `{Strconv} `{Runtime}.

Lemma Sprintf_topic_nonempty (k : string) (elem : GoValue) :
  Sprintf_topic k elem ≠ "".
Proof. unfold Sprintf_topic. destruct k; discriminate. Qed.

Lemma first_or_app (msg : string) (l1 l2 : list string) :
  Forall (λ s, s ≠ "") l1 →
  first_or (first_or msg l1) l2 = first_or msg (l1 ++ l2).
Proof.
  intros Hl1. unfold first_or.
  destruct (decide (msg = "")) as [->|Hm].
  - destruct Hl1 as [|s l1 Hs _]; simpl.
    + destruct (decide ("" = "")); done.
    + destruct (decide (s = "")); done.
  - destruct (decide (msg = "")); done.
Qed.

Lemma first_or_nil (msg : string) : first_or msg [] = msg.
Proof. unfold first_or. by case_decide. Qed.

Lemma fold_add_topic (k : string) (elems : list GoValue) (re : ResponseError) :
  fold_left (add_topic k) elems re =
  mkResponseError (Status re)
    (first_or (Message re) (map (Sprintf_topic k) elems))
    (Errors re ++ map (Sprintf_topic k) elems).
Proof.
  revert re. induction elems as [|e elems IH]; intros re; simpl.
  - rewrite first_or_nil, app_nil_r. by destruct re.
  - rewrite IH. simpl. f_equal.
    + change (if decide (Message re = "") then Sprintf_topic k e else Message re)
        with (first_or (Message re) [Sprintf_topic k e]).
      rewrite first_or_app; [done|].
      repeat constructor. apply Sprintf_topic_nonempty.
    + by rewrite <- app_assoc.
Qed.

Lemma topic_messages_nonempty (kv : string * GoValue) :
  Forall (λ s, s ≠ "") (topic_messages kv).
Proof.
  unfold topic_messages. destruct kv.2; try constructor.
  - apply Sprintf_topic_nonempty.
  - constructor.
  - apply Forall_forall. intros s Hs.
    apply list_elem_of_fmap in Hs as (e & -> & _). apply Sprintf_topic_nonempty.
Qed.

(** The loop over the entries appends the messages of each entry in
    turn, as long as no value is nil. *)
Lemma flatten_entries_spec (kvs : list (string * GoValue)) (re : ResponseError) :
  Forall (λ kv, kv.2 ≠ GoNil) kvs →
  flatten_entries kvs re =
  Returns (mkResponseError (Status re)
             (first_or (Message re) (flat_map topic_messages kvs))
             (Errors re ++ flat_map topic_messages kvs)).
Proof.
  intros Hkvs. revert re.
  induction Hkvs as [|[k v] kvs Hv _ IH]; intros re; simpl.
  - rewrite first_or_nil, app_nil_r. by destruct re.
  - simpl in Hv.
    rewrite <- first_or_app by apply topic_messages_nonempty.
    rewrite app_assoc.
    destruct v as [|b|f|s|elems|m]; [done|..]; rewrite IH;
      unfold topic_messages; simpl;
      rewrite ?first_or_nil, ?app_nil_r; try done.
    + rewrite fold_add_topic. done.
Qed.

(** What [wrapSpecificError] leaves of the error it is given. *)
Lemma wrapSpecificError_embedded (r : Response) (err : ResponseError) :
  embedded_ResponseError (wrapSpecificError r err) =
  Some (if Status err =? StatusNotAcceptable
        then mkResponseError (Status err) "Not Acceptable" (Errors err)
        else err).
Proof.
  unfold wrapSpecificError.
  destruct (Status err =? StatusTooManyRequests) eqn:E429.
  - apply Z.eqb_eq in E429. rewrite E429. reflexivity.
  - by destruct (Status err =? StatusNotAcceptable).
Qed.

(** A 429 is a [RateLimitError], every other status a [ResponseError]. *)
Lemma wrapSpecificError_kind (r : Response) (err : ResponseError) :
  if Status err =? StatusTooManyRequests
  then ∃ ra, wrapSpecificError r err = RateLimitError err ra
  else ∃ e, wrapSpecificError r err = ResponseError_ e.
Proof.
  unfold wrapSpecificError.
  destruct (Status err =? StatusTooManyRequests); [eauto|].
  destruct (Status err =? StatusNotAcceptable); eauto.
Qed.

(** C6 (as amended): for a non-2xx response whose body decodes to an
    [errors] array of N elements, the classifier returns an error that
    is or embeds a [ResponseError] whose list has exactly the N
    renderings of the elements in the order of the array (the elements
    themselves when they are strings), and whose message is the list
    joined by a comma and a space, unless the status is 406, for which
    the message is the status text. *)
Theorem C6_errors_array (r : Response) (body error_field : string)
    (elems : list GoValue) :
  ¬ (StatusOK ≤ StatusCode r < StatusMultipleChoices) →
  RespBody r = inl body → body ≠ "" →
  Unmarshal_shopifyError body = inl (error_field, GoSlice elems) →
  ∃ (err : error) (re : ResponseError),
    CheckResponseError r = Returns (Some err) ∧
    embedded_ResponseError err = Some re ∧
    Status re = StatusCode r ∧
    Errors re = map Sprint elems ∧
    length (Errors re) = length elems ∧
    (∀ ss : list string, elems = map GoString ss → Errors re = ss) ∧
    Message re =
      if StatusCode r =? StatusNotAcceptable then "Not Acceptable"
      else Join (Errors re) ", ".
Proof.
  intros Hstatus Hbody Hne Hdec.
  unfold CheckResponseError.
  replace ((StatusOK <=? StatusCode r) && (StatusCode r <? StatusMultipleChoices))
    with false by (symmetry; apply andb_false_iff; lia).
  rewrite Hbody, decide_False, Hdec by done. simpl.
  eexists _, _. split; [reflexivity|].
  split; [apply wrapSpecificError_embedded|]. simpl.
  destruct (StatusCode r =? StatusNotAcceptable); simpl;
    (repeat split; [by rewrite length_map|]);
    intros ss ->; rewrite map_map; simpl; apply map_id.
Qed.

(** C7 (as amended): for a non-2xx response whose body decodes to an
    [errors] object whose values are all arrays, the classifier returns
    an error that is or embeds a [ResponseError] whose list is, for some
    order of the keys, the pairs of each key in the order of its array,
    each rendered as key, colon, space, element; so every pair occurs
    exactly once.  The message is the [error] field when that is set and
    otherwise the first pair, unless the status is 406, for which it is
    the status text. *)
Theorem C7_errors_map (r : Response) (body error_field : string)
    (m : gmap string GoValue) :
  ¬ (StatusOK ≤ StatusCode r < StatusMultipleChoices) →
  RespBody r = inl body → body ≠ "" →
  Unmarshal_shopifyError body = inl (error_field, GoMap m) →
  (∀ k v, m !! k = Some v → ∃ elems, v = GoSlice elems) →
  ∃ (err : error) (re : ResponseError) (kvs : list (string * GoValue)),
    CheckResponseError r = Returns (Some err) ∧
    embedded_ResponseError err = Some re ∧
    kvs ≡ₚ map_to_list m ∧
    Errors re = flat_map topic_messages kvs ∧
    Errors re ≡ₚ flat_map topic_messages (map_to_list m) ∧
    Message re =
      if StatusCode r =? StatusNotAcceptable then "Not Acceptable"
      else if decide (error_field = "") then default "" (head (Errors re))
      else error_field.
Proof.
  intros Hstatus Hbody Hne Hdec Harrays.
  unfold CheckResponseError.
  replace ((StatusOK <=? StatusCode r) && (StatusCode r <? StatusMultipleChoices))
    with false by (symmetry; apply andb_false_iff; lia).
  rewrite Hbody, decide_False, Hdec by done. simpl.
  rewrite flatten_entries_spec.
  - eexists _, _, (map_range m). split; [reflexivity|].
    split; [apply wrapSpecificError_embedded|]. simpl.
    split; [apply map_range_perm|].
    destruct (StatusCode r =? StatusNotAcceptable); simpl;
      (split; [done|]);
      (split; [apply Permutation_flat_map, map_range_perm|done]).
  - apply Forall_forall. intros [k v] Hkv.
    rewrite (map_range_perm m) in Hkv.
    apply elem_of_map_to_list in Hkv.
    destruct (Harrays k v Hkv) as [elems ->]. done.
Qed.

End Classifier.

Lemma C6_errors_array_witness :
  ∃ (err : error) (re : ResponseError),
    CheckResponseError (mkResponse 422 ∅ (inl body_array)) = Returns (Some err) ∧
    embedded_ResponseError err = Some re ∧
    Status re = 422 ∧
    Errors re = map Sprint [GoString "a"; GoString "b"] ∧
    length (Errors re) = 2%nat ∧
    (∀ ss : list string,
       [GoString "a"; GoString "b"] = map GoString ss → Errors re = ss) ∧
    Message re = Join (Errors re) ", ".
Proof.
  apply (C6_errors_array (mkResponse 422 ∅ (inl body_array)) body_array ""
           [GoString "a"; GoString "b"]).
  - vm_compute. intros [_ Hlt]. discriminate Hlt.
  - reflexivity.
  - vm_compute. discriminate.
  - vm_compute. reflexivity.
Defined.

(** C6, the claim as stated, fails on a 406: the body holds an array of
    two elements and the list has them in order, but the message is the
    status text, not the elements joined. *)
Lemma C6_counterexample :
  Unmarshal_shopifyError body_array
    = inl ("", GoSlice [GoString "a"; GoString "b"]) ∧
  CheckResponseError (mkResponse 406 ∅ (inl body_array))
    = Returns (Some (ResponseError_
                       (mkResponseError 406 "Not Acceptable" ["a"; "b"]))) ∧
  "Not Acceptable" ≠ Join ["a"; "b"] ", ".
Proof. vm_compute. repeat split. discriminate. Qed.

Lemma C7_errors_map_witness :
  ∃ (err : error) (re : ResponseError) (kvs : list (string * GoValue)),
    CheckResponseError (mkResponse 422 ∅ (inl body_map)) = Returns (Some err) ∧
    embedded_ResponseError err = Some re ∧
    kvs ≡ₚ map_to_list
             (<["title" := GoSlice [GoString "x"; GoString "y"]]>
                (<["order" := GoSlice [GoString "z"]]> ∅)) ∧
    Errors re = flat_map topic_messages kvs ∧
    Errors re ≡ₚ
      flat_map topic_messages
        (map_to_list
           (<["title" := GoSlice [GoString "x"; GoString "y"]]>
              (<["order" := GoSlice [GoString "z"]]> ∅))) ∧
    Message re = default "" (head (Errors re)).
Proof.
  apply (C7_errors_map (mkResponse 422 ∅ (inl body_map)) body_map ""
           (<["title" := GoSlice [GoString "x"; GoString "y"]]>
              (<["order" := GoSlice [GoString "z"]]> ∅))).
  - vm_compute. intros [_ Hlt]. discriminate Hlt.
  - reflexivity.
  - vm_compute. discriminate.
  - vm_compute. reflexivity.
  - intros k v Hkv.
    destruct (decide (k = "title")) as [->|Hk1].
    + rewrite lookup_insert_eq in Hkv. inversion Hkv. eauto.
    + rewrite lookup_insert_ne in Hkv by done.
      destruct (decide (k = "order")) as [->|Hk2].
      * rewrite lookup_insert_eq in Hkv. inversion Hkv. eauto.
      * rewrite lookup_insert_ne, lookup_empty in Hkv by done. discriminate.
Defined.

(** C7, the claim as stated, fails on a 406: no message was set by the
    body, the list holds the three pairs, but the message is the status
    text, not the first pair. *)
Lemma C7_counterexample :
  Unmarshal_shopifyError body_map
    = inl ("", GoMap (<["title" := GoSlice [GoString "x"; GoString "y"]]>
                        (<["order" := GoSlice [GoString "z"]]> ∅))) ∧
  CheckResponseError (mkResponse 406 ∅ (inl body_map))
    = Returns (Some (ResponseError_
                       (mkResponseError 406 "Not Acceptable"
                          ["order: z"; "title: x"; "title: y"]))) ∧
  "Not Acceptable" ≠ "order: z".
Proof. vm_compute. repeat split. discriminate. Qed.

(** The order of the keys in the list is the runtime's: the same body
    under a runtime that ranges the other way. *)
Example CheckResponseError_map_order :
  @CheckResponseError json_ref fmt_ref strconv_ref runtime_rev
    (mkResponse 422 ∅ (inl body_map))
  = Returns (Some (ResponseError_
                     (mkResponseError 422 "title: x"
                        ["title: x"; "title: y"; "order: z"]))).
Proof. vm_compute. reflexivity. Qed.

(** ** The transport executor *)

Section Transport.
Context `{EncodingJSON} `{Fmt} `{Strconv} `{Runtime}.

(** A transport-level error ends the loop on its occurrence. *)
Lemma retry_loop_transport_error (body : option string) (e : string)
    (script : list RoundTrip) (k n : Z) (tr : list Event) :
  retry_loop body (inr e :: script) k n tr =
  Done (mkLoopExit (int_add n 1) (tr ++ [EvSend body]) script
          (inr (OtherError e))).
Proof. reflexivity. Qed.

(** A response without error ends the loop with that response. *)
Lemma retry_loop_success (body : option string) (resp : Response)
    (script : list RoundTrip) (k n : Z) (tr : list Event) :
  CheckResponseError resp = Returns None →
  retry_loop body (inl resp :: script) k n tr =
  Done (mkLoopExit (int_add n 1) (tr ++ [EvSend body]) script (inl resp)).
Proof. intros E. simpl. by rewrite E. Qed.

(** With a budget of at most 1, a classified error is returned as it
    is, whatever its kind. *)
Lemma retry_loop_budget_exhausted (body : option string) (resp : Response)
    (respErr : error) (script : list RoundTrip) (k n : Z) (tr : list Event) :
  CheckResponseError resp = Returns (Some respErr) → k ≤ 1 →
  retry_loop body (inl resp :: script) k n tr =
  Done (mkLoopExit (int_add n 1) (tr ++ [EvSend body]) script (inr respErr)).
Proof.
  intros E Hk. simpl. rewrite E.
  by replace (k <=? 1) with true by (symmetry; apply Z.leb_le; lia).
Qed.

(** With a budget above 1, a rate-limit error is followed by a call of
    [time.Sleep] for the advertised seconds and by another attempt. *)
Lemma retry_loop_rate_limited (body : option string) (resp : Response)
    (re : ResponseError) (RetryAfter : Z) (script : list RoundTrip)
    (k n : Z) (tr : list Event) :
  CheckResponseError resp = Returns (Some (RateLimitError re RetryAfter)) →
  1 < k →
  retry_loop body (inl resp :: script) k n tr =
  retry_loop body script (int_sub k 1) (int_add n 1)
    (tr ++ [EvSend body; EvTimeSleep (int_mul RetryAfter Second)]).
Proof.
  intros E Hk. simpl. rewrite E.
  replace (k <=? 1) with false by (symmetry; apply Z.leb_gt; lia).
  by rewrite <- app_assoc.
Qed.

(** With a budget above 1, a 503 that is not a rate-limit error is
    followed at once by another attempt. *)
Lemma retry_loop_unavailable (body : option string) (resp : Response)
    (respErr : error) (script : list RoundTrip) (k n : Z) (tr : list Event) :
  CheckResponseError resp = Returns (Some respErr) →
  (∀ re ra, respErr ≠ RateLimitError re ra) →
  StatusCode resp = StatusServiceUnavailable → 1 < k →
  retry_loop body (inl resp :: script) k n tr =
  retry_loop body script (int_sub k 1) (int_add n 1) (tr ++ [EvSend body]).
Proof.
  intros E Hrl H503 Hk. simpl. rewrite E.
  replace (k <=? 1) with false by (symmetry; apply Z.leb_gt; lia).
  rewrite H503. simpl.
  destruct respErr; try done. by destruct (Hrl e RetryAfter).
Qed.

(** Every other classified error is returned on its first occurrence. *)
Lemma retry_loop_other_error (body : option string) (resp : Response)
    (respErr : error) (script : list RoundTrip) (k n : Z) (tr : list Event) :
  CheckResponseError resp = Returns (Some respErr) →
  (∀ re ra, respErr ≠ RateLimitError re ra) →
  StatusCode resp ≠ StatusServiceUnavailable →
  retry_loop body (inl resp :: script) k n tr =
  Done (mkLoopExit (int_add n 1) (tr ++ [EvSend body]) script (inr respErr)).
Proof.
  intros E Hrl H503. simpl. rewrite E.
  destruct (k <=? 1); [done|].
  replace (StatusCode resp =? StatusServiceUnavailable) with false
    by (symmetry; by apply Z.eqb_neq).
  destruct respErr; try done. by destruct (Hrl e RetryAfter).
Qed.

(** What the loop returns is decided by the last round trip it made:
    the response it breaks out with, the transport error, or the error
    the classifier gave for the last response, never an error of the
    loop's own.  Its events are sends and calls of [time.Sleep], never
    calls of the client's delay function. *)
Lemma retry_loop_run (body : option string) (script : list RoundTrip)
    (k n : Z) (tr : list Event) (ex : LoopExit) :
  retry_loop body script k n tr = Done ex → loop_run script tr ex.
Proof.
  revert k n tr.
  induction script as [|rt script IH]; intros k n tr Hrun; [done|].
  assert (Hstop : ∀ result,
            ended_on rt result →
            Done (mkLoopExit (int_add n 1) (tr ++ [EvSend body]) script result)
              = Done ex →
            loop_run (rt :: script) tr ex).
  { intros result Hend Hd. inversion Hd; subst ex.
    exists [], rt, [EvSend body]. repeat split; [|done].
    intros d Hd'. by apply list_elem_of_singleton in Hd'. }
  assert (Hrec : ∀ k' n' (evs0 : list Event),
            no_client_sleep evs0 →
            retry_loop body script k' n' (tr ++ evs0) = Done ex →
            loop_run (rt :: script) tr ex).
  { intros k' n' evs0 Hevs0 Hrun'.
    destruct (IH _ _ _ Hrun') as (consumed & rt0 & evs & -> & Htr & Hno & Hres).
    exists (rt :: consumed), rt0, (evs0 ++ evs).
    split; [done|]. split; [by rewrite Htr, app_assoc|]. split; [|done].
    intros d Hd. apply elem_of_app in Hd as [Hd|Hd];
      [by apply (Hevs0 d)|by apply (Hno d)]. }
  assert (Hsend : no_client_sleep [EvSend body]).
  { intros d Hd. by apply list_elem_of_singleton in Hd. }
  simpl in Hrun. destruct rt as [resp|e].
  - destruct (CheckResponseError resp) as [[respErr|]|] eqn:E; [| |done].
    + assert (Hend : ended_on (inl resp) (inr respErr)) by (right; eauto).
      destruct (k <=? 1); [by apply (Hstop _ Hend)|].
      assert (H503 : (if StatusCode resp =? StatusServiceUnavailable
                      then retry_loop body script (int_sub k 1) (int_add n 1)
                             (tr ++ [EvSend body])
                      else Done (mkLoopExit (int_add n 1) (tr ++ [EvSend body])
                                   script (inr respErr))) = Done ex →
                     loop_run (inl resp :: script) tr ex).
      { destruct (StatusCode resp =? StatusServiceUnavailable);
          [by apply Hrec|by apply Hstop]. }
      destruct respErr; try (by apply H503).
      rewrite <- app_assoc in Hrun. revert Hrun. apply Hrec.
      intros d Hd. simpl in Hd.
      apply elem_of_cons in Hd as [?|Hd]; [done|].
      by apply list_elem_of_singleton in Hd.
    + apply (Hstop (inl resp)); [done|done].
  - apply (Hstop (inr (OtherError e))); [left; eauto|done].
Qed.

End Transport.

Section DoGetHeaders.
Context `{EncodingJSON} `{Fmt} `{Strconv} `{Runtime} {V : Type}.
Variable Decode : string → V → V * option string.

(** [doGetHeaders] in terms of its loop: an error of the loop is
    returned as it is, with the rate-limit state untouched; after a
    response without error, a decoding error is returned with the state
    untouched too, and otherwise the headers are returned and the state
    is set from them. *)
Lemma doGetHeaders_inv (c : Client) (script : list RoundTrip) (tr : list Event)
    (body : option string) (v : option V) (ex : DoExit V) :
  doGetHeaders Decode c script tr body v = Done ex →
  ∃ lex : LoopExit,
    retry_loop body script (retries c) 0 tr = Done lex ∧
    de_script ex = le_script lex ∧ de_trace ex = le_trace lex ∧
    attempts (de_client ex) = le_attempts lex ∧
    retries (de_client ex) = retries c ∧
    match de_result ex with
    | inr err =>
        RateLimits (de_client ex) = RateLimits c ∧
        (le_result lex = inr err ∨ ∃ resp, le_result lex = inl resp)
    | inl h =>
        ∃ resp, le_result lex = inl resp ∧ h = Header resp ∧
          RateLimits (de_client ex) =
            updateRateLimits (RateLimits c) (Header resp)
    end.
Proof.
  unfold doGetHeaders. simpl.
  destruct (retry_loop body script (retries c) 0 tr)
    as [[n tr' script' [resp|err]]| | |]; try done.
  - set (c1 := if decide _ then _ else _).
    assert (Hc1 : retries c1 = retries c ∧ attempts c1 = n ∧
                  RateLimits c1 = RateLimits c).
    { subst c1. by case_decide. }
    destruct Hc1 as (Hr & Ha & Hrl).
    destruct v as [x|].
    + destruct (RespBody resp) as [bytes|e].
      * destruct (Decode bytes x) as [x' [e|]]; intros [= <-]; simpl;
          eexists; (split; [reflexivity|]); simpl; repeat split; eauto.
        exists resp. by rewrite Hrl.
      * intros [= <-]; simpl.
        eexists; (split; [reflexivity|]); simpl; repeat split; eauto.
    + intros [= <-]; simpl.
      eexists; (split; [reflexivity|]); simpl; repeat split; eauto.
      exists resp. by rewrite Hrl.
  - intros [= <-]; simpl.
    eexists; (split; [reflexivity|]); simpl; repeat split; eauto.
Qed.


(** The events of a call are sends and calls of [time.Sleep]: the
    client's delay function is never called. *)
Lemma doGetHeaders_no_client_sleep (c : Client) (script : list RoundTrip)
    (tr : list Event) (body : option string) (v : option V) (ex : DoExit V) :
  doGetHeaders Decode c script tr body v = Done ex →
  ∃ evs, de_trace ex = tr ++ evs ∧ no_client_sleep evs.
Proof.
  intros Hrun.
  destruct (doGetHeaders_inv _ _ _ _ _ _ Hrun)
    as (lex & Hloop & _ & Htr & _).
  destruct (retry_loop_run _ _ _ _ _ _ Hloop)
    as (_ & _ & evs & _ & Hevs & Hno & _).
  exists evs. by rewrite Htr.
Qed.

End DoGetHeaders.



(** With a budget of 1 the rate-limit error is returned at once, with no
    delay. *)
Example doGetHeaders_429_budget_1 :
  doGetHeaders no_decode (client0 1) [inl resp_429; inl resp_200] [] None None
  = Done (mkDoExit (mkClient "admin" "stable" 1 1
                      (RateLimitInfo.mk 0 0 None f64_zero))
            [EvSend None] [inl resp_200] None
            (inr (RateLimitError (mkResponseError 429 "" []) 2))).
Proof. vm_compute. reflexivity. Qed.

(** A 503 with a budget of 2 is retried at once. *)
Example doGetHeaders_503_budget_2 :
  ∃ ex : DoExit unit,
    doGetHeaders no_decode (client0 2) [inl resp_503; inl resp_200] [] None None
      = Done ex ∧
    de_trace ex = [EvSend None; EvSend None] ∧
    de_result ex = inl (Header resp_200).
Proof. eexists. split; [vm_compute; reflexivity|]. by simpl. Qed.

Section RetryPolicy.
Context `{EncodingJSON} `{Fmt} `{Strconv} `{Runtime} {V : Type}.
Variable Decode : string → V → V * option string.

(** One attempt of the loop, by the round trip it gets. *)
Lemma retry_loop_attempt (body : option string) (rt : RoundTrip)
    (script : list RoundTrip) (k n : Z) (tr : list Event) :
  retry_loop body (rt :: script) k n tr =
    match rt with
    | inr e =>
        Done (mkLoopExit (int_add n 1) (tr ++ [EvSend body]) script
                (inr (OtherError e)))
    | inl resp =>
        match CheckResponseError resp with
        | Panics => Panicked
        | Returns None =>
            Done (mkLoopExit (int_add n 1) (tr ++ [EvSend body]) script
                    (inl resp))
        | Returns (Some respErr) =>
            if (1 <? k) && is_RateLimitError respErr then
              retry_loop body script (int_sub k 1) (int_add n 1)
                (tr ++ [EvSend body;
                        EvTimeSleep (int_mul (RetryAfter_of respErr) Second)])
            else if (1 <? k) && (StatusCode resp =? StatusServiceUnavailable)
            then
              retry_loop body script (int_sub k 1) (int_add n 1)
                (tr ++ [EvSend body])
            else
              Done (mkLoopExit (int_add n 1) (tr ++ [EvSend body]) script
                      (inr respErr))
        end
    end.
Proof.
  destruct rt as [resp|e]; [|reflexivity]. simpl.
  destruct (CheckResponseError resp) as [[respErr|]|]; try reflexivity.
  rewrite (Z.leb_antisym 1 k).
  destruct (1 <? k); simpl; [|done].
  destruct respErr; simpl; try done.
  by rewrite <- app_assoc.
Qed.

(** After its loop, [doGetHeaders] completes: with the events and the
    script the loop left, and with the loop's error when it has one. *)
Lemma doGetHeaders_after_loop (c : Client) (script : list RoundTrip)
    (tr : list Event) (body : option string) (v : option V) (lex : LoopExit) :
  retry_loop body script (retries c) 0 tr = Done lex →
  ∃ ex : DoExit V,
    doGetHeaders Decode c script tr body v = Done ex ∧
    de_trace ex = le_trace lex ∧ de_script ex = le_script lex ∧
    attempts (de_client ex) = le_attempts lex ∧
    ∀ err, le_result lex = inr err → de_result ex = inr err.
Proof.
  intros Hloop. unfold doGetHeaders. simpl. rewrite Hloop.
  destruct lex as [n tr' script' [resp|err]]; simpl.
  - set (c1 := if decide _ then _ else _).
    assert (Ha : attempts c1 = n) by (subst c1; by case_decide).
    destruct v as [x|]; [destruct (RespBody resp) as [bytes|e]|].
    + destruct (Decode bytes x) as [x' [e|]]; eexists; by repeat split.
    + eexists; by repeat split.
    + eexists; by repeat split.
  - eexists. repeat split. by intros ? [= ->].
Qed.


End RetryPolicy.


(** A 429 whose body is not JSON. *)
Example resp_429_html_classified :
  CheckResponseError (mkResponse 429 (<["Retry-After" := "2"]> ∅) (inl "<html>"))
  = Returns (Some (ResponseDecodingError "<html>" "invalid character" 429)).
Proof. vm_compute. reflexivity. Qed.


(** ** The GraphQL retry loop *)

Section GraphQL.
Context `{EncodingJSON} `{Fmt} `{Strconv} `{Runtime} {D : Type}.
Variable Decode : string → graphQLResponse D → graphQLResponse D * option string.

(** The loop over the errors when none is throttled: all messages are
    gathered and the retry flag is unchanged. *)
Lemma scan_errors_none_throttled (errs : list graphQLError) (total limit : Z)
    (ra : float64) (re : ResponseError) (doRetry : bool) :
  existsb throttled errs = false →
  scan_errors errs total limit ra re doRetry =
  inr (mkResponseError (Status re) (Message re)
         (Errors re ++ map ge_Message errs), doRetry).
Proof.
  revert re. induction errs as [|err errs IH]; intros re; simpl.
  - intros _. rewrite app_nil_r. by destruct re.
  - intros [Herr Herrs]%orb_false_iff. rewrite Herr, IH by done.
    simpl. by rewrite <- app_assoc.
Qed.

(** The loop over the errors when the limit is not reached: all
    messages are gathered, and the retry flag is set as soon as one
    error is throttled. *)
Lemma scan_errors_below_limit (errs : list graphQLError) (total limit : Z)
    (ra : float64) (re : ResponseError) (doRetry : bool) :
  total < limit →
  scan_errors errs total limit ra re doRetry =
  inr (mkResponseError (Status re) (Message re)
         (Errors re ++ map ge_Message errs),
       doRetry || existsb throttled errs).
Proof.
  intros Hlt. revert re doRetry.
  induction errs as [|err errs IH]; intros re doRetry; simpl.
  - rewrite app_nil_r, orb_false_r. by destruct re.
  - replace (limit <=? total) with false by (symmetry; apply Z.leb_gt; lia).
    destruct (throttled err); rewrite IH; simpl; rewrite <- app_assoc;
      by rewrite ?orb_true_r.
Qed.

(** The loop over the errors when the limit is reached: the first
    throttled error ends it with a rate-limit error. *)
Lemma scan_errors_at_limit (errs : list graphQLError) (total limit : Z)
    (ra : float64) (re : ResponseError) (doRetry : bool) :
  limit ≤ total → existsb throttled errs = true →
  scan_errors errs total limit ra re doRetry =
  inl (RateLimitError (mkResponseError 200 (first_throttled errs) [])
         (int_of_f64 ra)).
Proof.
  intros Hle. revert re doRetry.
  induction errs as [|err errs IH]; intros re doRetry; simpl; [done|].
  replace (limit <=? total) with true by (symmetry; apply Z.leb_le; lia).
  destruct (throttled err) eqn:Herr; simpl; [done|].
  intros Herrs. by rewrite IH.
Qed.

(** C2 (as amended): a round of [Query] whose response holds at least
    one query error.  If some error is throttled and the accumulated
    attempts have reached the retry limit, [Query] returns a rate-limit
    error with the message of the first throttled error and the whole
    seconds of the suggested wait; if some error is throttled and the
    limit is not reached, it calls the client's delay function for the
    whole seconds of the suggested wait and runs the whole query again;
    if no error is throttled, it returns a [ResponseError] of status 200
    with all the messages, without another round. *)
Theorem C2_Query_round (fuel : nat) (marshalled : string + string)
    (c : Client) (script : list RoundTrip) (tr : list Event)
    (attempts_total : Z) (resp : D)
    (ex : DoExit (graphQLResponse D)) (gr : graphQLResponse D) :
  Post Decode c script tr marshalled (Some (mkGraphQLResponse resp [] None))
    = Done ex →
  de_v ex = Some gr →
  gr_Errors gr ≠ [] →
  let total := int_add attempts_total (attempts (de_client ex)) in
  let c' := client_after_round (de_client ex) total gr in
  let seconds := int_of_f64 (round_wait gr) in
  Query_loop Decode (S fuel) marshalled c script tr attempts_total resp =
    if existsb throttled (gr_Errors gr) then
      if retries (de_client ex) <=? total then
        Done (mkQueryExit c' (de_trace ex) (de_script ex) (gr_Data gr)
                (Some (RateLimitError
                         (mkResponseError 200 (first_throttled (gr_Errors gr)) [])
                         seconds)))
      else
        Query_loop Decode fuel marshalled c' (de_script ex)
          (de_trace ex ++ [EvClientSleep (int_mul seconds Second)])
          total (gr_Data gr)
    else
      Done (mkQueryExit c' (de_trace ex) (de_script ex) (gr_Data gr)
              (Some (ResponseError_
                       (mkResponseError 200 "" (map ge_Message (gr_Errors gr)))))).
Proof.
  intros HPost Hv Herrs total c' seconds.
  cbn [Query_loop]. rewrite HPost, Hv. cbn [default from_option]. unfold id.
  fold total. fold c'.
  assert (Hc' : retries c' = retries (de_client ex)).
  { subst c'. unfold client_after_round. by destruct (gr_Extensions gr). }
  rewrite Hc'. fold seconds.
  destruct (gr_Errors gr) as [|err errs] eqn:Hlist; [done|].
  destruct (existsb throttled (err :: errs)) eqn:Hth.
  - destruct (retries (de_client ex) <=? total) eqn:Hlim.
    + rewrite scan_errors_at_limit by (try done; by apply Z.leb_le).
      reflexivity.
    + rewrite scan_errors_below_limit by (by apply Z.leb_gt).
      rewrite Hth. reflexivity.
  - rewrite scan_errors_none_throttled by done. reflexivity.
Qed.

End GraphQL.

Lemma C2_Query_round_witness :
  ∃ (ex : DoExit (graphQLResponse unit)) (gr : graphQLResponse unit),
    Post decode_graphql (client0 3)
      [inl (resp_graphql "throttled 200"); inl (resp_graphql "ok")] []
      (inl "query") (Some (mkGraphQLResponse tt [] None)) = Done ex ∧
    de_v ex = Some gr ∧
    Query_loop decode_graphql 2 (inl "query") (client0 3)
      [inl (resp_graphql "throttled 200"); inl (resp_graphql "ok")] [] 0 tt =
    Query_loop decode_graphql 1 (inl "query")
      (client_after_round (de_client ex) (int_add 0 (attempts (de_client ex))) gr)
      (de_script ex)
      (de_trace ex ++ [EvClientSleep (int_mul (int_of_f64 (round_wait gr)) Second)])
      (int_add 0 (attempts (de_client ex))) (gr_Data gr).
Proof.
  eexists. eexists.
  split; [vm_compute; reflexivity|].
  split; [vm_compute; reflexivity|].
  match goal with
  | |- _ = Query_loop _ _ _ (client_after_round (de_client ?ex) _ ?gr) _ _ _ _ =>
      apply (C2_Query_round decode_graphql 1 (inl "query") (client0 3)
               [inl (resp_graphql "throttled 200"); inl (resp_graphql "ok")]
               [] 0 tt ex gr)
  end.
  - vm_compute. reflexivity.
  - vm_compute. reflexivity.
  - vm_compute. discriminate.
Defined.

(** C2, the claim as stated, fails when the suggested wait is not a
    whole number of seconds.  With 100 points available, a restore rate
    of 50 and a requested cost of 125 the suggested wait is half a
    second; at the retry limit the rate-limit error carries 0, and below
    the limit the client's delay function is called with 0. *)
Lemma C2_counterexample :
  RetryAfterSeconds (mkGraphQLCost 125 None throttle_100_50)
    = f64_div (f64_of_int 1) (f64_of_int 2) ∧
  (∃ ex : QueryExit unit,
     Query decode_graphql 1 (inl "query") (client0 0)
       [inl (resp_graphql "throttled 125")] [] tt = Done ex ∧
     qe_err ex = Some (RateLimitError (mkResponseError 200 "Throttled" []) 0)) ∧
  (∃ ex : QueryExit unit,
     Query decode_graphql 2 (inl "query") (client0 3)
       [inl (resp_graphql "throttled 125"); inl (resp_graphql "ok")] [] tt
       = Done ex ∧
     qe_trace ex =
       [EvSend (Some "query"); EvClientSleep 0; EvSend (Some "query")]) ∧
  f64_of_int 0 ≠ f64_div (f64_of_int 1) (f64_of_int 2).
Proof.
  split; [vm_compute; reflexivity|].
  split; [eexists; split; vm_compute; reflexivity|].
  split; [eexists; split; vm_compute; reflexivity|].
  vm_compute. discriminate.
Qed.

(** The specification's example: a throttled response with 100 points
    available, a restore rate of 50 and a requested cost of 200.  The
    client's delay function is called with 2 seconds, then the query is
    sent again. *)
Example Query_throttled_then_ok :
  ∃ ex : QueryExit unit,
    Query decode_graphql 2 (inl "query") (client0 3)
      [inl (resp_graphql "throttled 200"); inl (resp_graphql "ok")] [] tt
      = Done ex ∧
    qe_trace ex =
      [EvSend (Some "query"); EvClientSleep (2 * Second); EvSend (Some "query")] ∧
    qe_err ex = None ∧
    attempts (qe_client ex) = 2.
Proof. eexists. split; vm_compute; repeat split; reflexivity. Qed.

(** Errors of which none is throttled end the query at once. *)
Example Query_rejected :
  ∃ ex : QueryExit unit,
    Query decode_graphql 1 (inl "query") (client0 3)
      [inl (resp_graphql "rejected")] [] tt = Done ex ∧
    qe_trace ex = [EvSend (Some "query")] ∧
    qe_err ex =
      Some (ResponseError_
              (mkResponseError 200 ""
                 ["Field does not exist"; "Field does not exist"])).
Proof. eexists. split; vm_compute; repeat split; reflexivity. Qed.

Section GraphQLTermination.
Context `{EncodingJSON} `{Fmt} `{Strconv} `{Runtime} {D : Type}.
Variable Decode : string → graphQLResponse D → graphQLResponse D * option string.

Lemma retry_loop_fuel (body : option string) (script : list RoundTrip)
    (k n : Z) (tr : list Event) :
  retry_loop body script k n tr ≠ OutOfFuel.
Proof.
  revert k n tr. induction script as [|[resp|e] script IH]; intros k n tr;
    simpl; try done.
  destruct (CheckResponseError resp) as [[respErr|]|]; try done.
  destruct (k <=? 1); [done|].
  destruct respErr; try done;
    destruct (StatusCode resp =? StatusServiceUnavailable); done.
Qed.

Lemma doGetHeaders_fuel {V : Type} (Dec : string → V → V * option string)
    (c : Client) (script : list RoundTrip) (tr : list Event)
    (body : option string) (v : option V) :
  doGetHeaders Dec c script tr body v ≠ OutOfFuel.
Proof.
  unfold doGetHeaders.
  pose proof (retry_loop_fuel body script (retries (set_attempts c 0)) 0 tr)
    as Hnf.
  destruct (retry_loop _ _ _ _ _) as [[n tr' script' [resp|err]]| | |];
    try done.
  destruct v as [x|]; [|done].
  destruct (RespBody resp) as [bytes|e]; [|done].
  by destruct (Dec bytes x) as [x' [e|]].
Qed.

(** A call that reaches the transport takes at least one round trip off
    the script; a call that does not leaves [v] as it was. *)
Lemma Post_progress (c : Client) (script : list RoundTrip) (tr : list Event)
    (marshalled : string + string) (gr0 : graphQLResponse D)
    (ex : DoExit (graphQLResponse D)) :
  Post Decode c script tr marshalled (Some gr0) = Done ex →
  de_v ex = Some gr0 ∨ (length (de_script ex) < length script)%nat.
Proof.
  destruct marshalled as [js|e]; simpl.
  - intros Hrun. right.
    destruct (doGetHeaders_inv _ _ _ _ _ _ _ Hrun)
      as (lex & Hloop & -> & _).
    destruct (retry_loop_run _ _ _ _ _ _ Hloop)
      as (consumed & rt & evs & -> & _).
    rewrite length_app. simpl. lia.
  - intros [= <-]. by left.
Qed.

(** [Query] does not run out of fuel when it is given more fuel than
    there are round trips in the script: every round that is followed by
    another has taken a round trip. *)
Lemma Query_loop_fuel (fuel : nat) (marshalled : string + string) (c : Client)
    (script : list RoundTrip) (tr : list Event) (total : Z) (resp : D) :
  (length script < fuel)%nat →
  Query_loop Decode fuel marshalled c script tr total resp ≠ OutOfFuel.
Proof.
  revert c script tr total resp.
  induction fuel as [|fuel IH]; intros c script tr total resp Hfuel; [lia|].
  cbn [Query_loop].
  destruct (Post Decode c script tr marshalled _) as [ex| | |] eqn:HPost;
    try done.
  - destruct (Post_progress _ _ _ _ _ _ HPost) as [Hv|Hlen].
    + by rewrite Hv.
    + destruct (gr_Errors _); [done|].
      destruct (scan_errors _ _ _ _ _ _) as [|[re [|]]]; try done.
      apply IH. lia.
  - destruct marshalled as [js|e]; [|done]. simpl in HPost.
    by apply doGetHeaders_fuel in HPost.
Qed.

End GraphQLTermination.

(** ** The pagination extractor *)

Section Pagination.
Context `{NetURL}.

(** A match has three parts and its relation is [previous] or [next]. *)
Lemma linkRegex_match_shape (link : string) :
  linkRegex_FindStringSubmatch link = [] ∨
  ∃ url rel, linkRegex_FindStringSubmatch link = [link; url; rel] ∧
             url ≠ "" ∧ (rel = "previous" ∨ rel = "next").
Proof.
  unfold linkRegex_FindStringSubmatch.
  destruct (strip_prefix "<" (skip_spaces link)) as [s1|]; [|by left].
  destruct (span_until ">" s1) as [[|a url] s2]; [by left|].
  destruct (strip_prefix _ s2) as [s3|]; [|by left].
  destruct (strip_prefix "previous" s3) as [s4|].
  - destruct (strip_prefix _ s4) as [s5|]; [|by left].
    destruct (all_spaces s5); [|by left].
    right. eexists _, _. split; [reflexivity|]. split; [done|by left].
  - destruct (strip_prefix "next" s3) as [s4|]; [|by left].
    destruct (strip_prefix _ s4) as [s5|]; [|by left].
    destruct (all_spaces s5); [|by left].
    right. eexists _, _. split; [reflexivity|]. split; [done|by right].
Qed.

(** An entry that is processed without error sets the next cursor when
    its relation is [next] and leaves it alone otherwise. *)
Lemma extract_link_next (link : string) (p0 p : Pagination) :
  extract_link link p0 = inl p →
  is_Some (NextPageOptions p) ↔
  is_Some (NextPageOptions p0) ∨ is_next_link link = true.
Proof.
  unfold extract_link, is_next_link.
  destruct (linkRegex_match_shape link) as [->|(url & rel & -> & _ & Hrel)];
    [done|].
  destruct (url_Parse url) as [u|e]; [|done].
  destruct (url_ParseQuery (RawQuery u)) as [params [e|]]; [done|].
  case_decide; [done|].
  destruct (if decide (Values_Get params "limit" ≠ "") then _ else _)
    as [n|err]; [|done].
  case_decide as Hnext; intros [= <-]; simpl.
  - rewrite bool_decide_eq_true. split; [by right|]. intros _. by eexists.
  - rewrite bool_decide_eq_true. split; [by left|]. intros [?|?]; done.
Qed.

Lemma extract_links_next (links : list string) (p0 p : Pagination) :
  extract_links links p0 = inl p →
  is_Some (NextPageOptions p) ↔
  is_Some (NextPageOptions p0) ∨ existsb is_next_link links = true.
Proof.
  revert p0. induction links as [|link links IH]; intros p0; simpl.
  - intros [= <-]. split; [by left|]. intros [?|?]; done.
  - destruct (extract_link link p0) as [p1|err] eqn:E; [|done].
    intros Hrest. rewrite (IH _ Hrest), (extract_link_next _ _ _ E).
    rewrite orb_true_iff. tauto.
Qed.

(** C4 (as amended): an empty header gives a pagination value with both
    cursors absent and no error; and whenever the extractor returns a
    pagination, its next cursor is present exactly when the header has
    an entry with the relation [next]. *)
Theorem C4_pagination_next :
  extractPagination "" = inl (mkPagination None None) ∧
  ∀ (linkHeader : string) (p : Pagination),
    extractPagination linkHeader = inl p →
    (is_Some (NextPageOptions p) ↔ has_next_relation linkHeader = true).
Proof.
  split; [reflexivity|].
  intros linkHeader p. unfold extractPagination, has_next_relation.
  case_decide as Hempty.
  - intros [= <-]. subst linkHeader. simpl. split; [by intros []|done].
  - intros Hp. rewrite (extract_links_next _ _ _ Hp). simpl.
    split; [intros [[]|]|]; auto. done.
Qed.

(** The loop stops at the first entry that fails. *)
Lemma extract_links_app (before : list string) (link : string)
    (after : list string) (p0 p : Pagination) :
  extract_links before p0 = inl p →
  extract_links (before ++ link :: after) p0 =
    match extract_link link p with
    | inr err => inr err
    | inl p' => extract_links after p'
    end.
Proof.
  revert p0. induction before as [|l before IH]; intros p0; simpl.
  - by intros [= ->].
  - destruct (extract_link l p0); [apply IH|done].
Qed.

Lemma Values_Get_absent (v : Values) (key : string) :
  v !! key = None → Values_Get v key = "".
Proof. unfold Values_Get. by intros ->. Qed.


End Pagination.


Lemma C4_pagination_next_witness :
  is_Some (NextPageOptions
             (mkPagination (Some (mkListOptions "foo" 0 2 None "" "" "" []))
                None)) ↔
  has_next_relation
    (link_entry "http://valid.url?page_info=foo&limit=2" "next") = true.
Proof.
  apply (proj2 C4_pagination_next
           (link_entry "http://valid.url?page_info=foo&limit=2" "next")).
  vm_compute. reflexivity.
Defined.

(** The cases of the repository's test of the extractor. *)
Example extractPagination_invalid_link :
  extractPagination "invalid link" =
  inr (ResponseDecodingError "" "could not extract pagination link header" 0).
Proof. vm_compute. reflexivity. Qed.

Example extractPagination_no_page_info :
  extractPagination (link_entry "http://valid.url" "next") =
  inr (ResponseDecodingError "" "page_info is missing" 0).
Proof. vm_compute. reflexivity. Qed.

Example extractPagination_invalid_limit :
  extractPagination
    (link_entry "http://valid.url?page_info=foo&limit=invalid" "next") =
  inr (NumError "Atoi" "invalid" ErrSyntax).
Proof. vm_compute. reflexivity. Qed.

Example extractPagination_next :
  extractPagination
    (link_entry "http://valid.url?page_info=foo&limit=2" "next") =
  inl (mkPagination (Some (mkListOptions "foo" 0 2 None "" "" "" [])) None).
Proof. vm_compute. reflexivity. Qed.

Example extractPagination_next_previous :
  extractPagination
    (link_entry "http://valid.url?page_info=foo" "next" +:+ ", " +:+
     link_entry "http://valid.url?page_info=bar" "previous") =
  inl (mkPagination (Some (mkListOptions "foo" 0 0 None "" "" "" []))
         (Some (mkListOptions "bar" 0 0 None "" "" "" []))).
Proof. vm_compute. reflexivity. Qed.

(** A [limit] with an empty value is treated as absent. *)
Example extractPagination_empty_limit :
  extractPagination
    (link_entry "http://valid.url?page_info=foo&limit=" "next") =
  inl (mkPagination (Some (mkListOptions "foo" 0 0 None "" "" "" [])) None).
Proof. vm_compute. reflexivity. Qed.

(** A header with a [next] entry that fails gives no pagination. *)
Example extractPagination_next_then_invalid :
  extractPagination
    (link_entry "http://valid.url?page_info=foo" "next" +:+ ",invalid link") =
  inr (ResponseDecodingError "" "could not extract pagination link header" 0).
Proof. vm_compute. reflexivity. Qed.

Example extractPagination_invalid_url :
  extractPagination (link_entry ":invalid.url" "next") =
  inr (ResponseDecodingError "" "pagination does not contain a valid URL" 0).
Proof. vm_compute. reflexivity. Qed.

(** C4, the claim as stated, fails on a header whose only entry has the
    relation [next] and no [page_info]: the relation is present, and the
    extractor returns an error and no pagination. *)
Lemma C4_counterexample :
  has_next_relation (link_entry "http://valid.url" "next") = true ∧
  extractPagination (link_entry "http://valid.url" "next") =
    inr (ResponseDecodingError "" "page_info is missing" 0).
Proof. vm_compute. split; reflexivity. Qed.


(** ** The request builder *)

Lemma values_of_Add (v : Values) (key value k : string) :
  values_of (Values_Add v key value) k =
  if decide (key = k) then values_of v key ++ [value] else values_of v k.
Proof.
  unfold values_of, Values_Add. case_decide as Hk.
  - subst k. by rewrite lookup_insert_eq.
  - by rewrite lookup_insert_ne.
Qed.

Lemma values_of_fold_Add (v : Values) (key : string) (values : list string)
    (k : string) :
  values_of (fold_left (λ acc value, Values_Add acc key value) values v) k =
  if decide (key = k) then values_of v key ++ values else values_of v k.
Proof.
  revert v. induction values as [|value values IH]; intros v; simpl.
  - case_decide; [subst; by rewrite app_nil_r|done].
  - rewrite IH, !values_of_Add.
    destruct (decide (key = k)) as [->|Hne].
    + rewrite decide_True by done. by rewrite <- app_assoc.
    + done.
Qed.

(** Adding the values of the path, entry by entry, appends to the values
    of each key those the path has for it. *)
Lemma add_path_values_entries (optionsQuery : Values)
    (entries : list (string * list string)) (k : string) :
  NoDup entries.*1 →
  values_of (add_path_values optionsQuery entries) k =
  values_of optionsQuery k ++ values_of (list_to_map entries) k.
Proof.
  unfold add_path_values. revert optionsQuery.
  induction entries as [|[key values] entries IH]; intros optionsQuery;
    simpl.
  - intros _. by rewrite app_nil_r.
  - intros [Hkey Hnodup]%NoDup_cons.
    rewrite IH, values_of_fold_Add by done.
    destruct (decide (key = k)) as [->|Hk].
    + unfold values_of. rewrite lookup_insert_eq.
      rewrite (proj1 (not_elem_of_list_to_map _ _) Hkey). simpl.
      by rewrite app_nil_r.
    + unfold values_of. by rewrite lookup_insert_ne.
Qed.

Section RequestBuilder.
Context `{NetURL} `{Runtime}.

(** Whatever the order in which the runtime ranges over the query of
    the path, each key ends with the values of the options followed by
    the values of the path. *)
Lemma add_path_values_spec (optionsQuery pathQuery : Values) (k : string) :
  values_of (add_path_values optionsQuery (map_range pathQuery)) k =
  values_of optionsQuery k ++ values_of pathQuery k.
Proof.
  assert (Hnodup : NoDup (map_range pathQuery).*1).
  { rewrite (map_range_perm pathQuery). apply NoDup_fst_map_to_list. }
  rewrite add_path_values_entries by done.
  do 2 f_equal.
  rewrite <- (list_to_map_to_list pathQuery) at 2.
  apply list_to_map_proper; [done|apply map_range_perm].
Qed.

(** The keys [Encode] writes: sorted, without repetition, those of the
    map. *)
Lemma Encode_keys (v : Values) :
  let keys := sort_Strings (map fst (map_range v)) in
  StronglySorted string_le keys ∧ NoDup keys ∧
  ∀ k, k ∈ keys ↔ is_Some (v !! k).
Proof.
  intros keys.
  assert (Hperm : keys ≡ₚ (map_to_list v).*1).
  { subst keys. rewrite sort_Strings_perm. by rewrite (map_range_perm v). }
  split; [apply (StronglySorted_merge_sort string_le)|].
  split; [rewrite Hperm; apply NoDup_fst_map_to_list|].
  intros k. rewrite Hperm. rewrite list_elem_of_fmap. split.
  - intros ([k' vs] & -> & Hin). apply elem_of_map_to_list in Hin. by eexists.
  - intros [vs Hvs]. exists (k, vs). split; [done|].
    by apply elem_of_map_to_list.
Qed.

Lemma written_for_block (key k : string) (values : list string) :
  written_for k (map (pair key) values) = if decide (key = k) then values else [].
Proof.
  unfold written_for. induction values as [|value values IH]; simpl.
  - by case_decide.
  - rewrite filter_cons. simpl. case_decide; simpl; [by rewrite IH|done].
Qed.

Lemma written_for_app (k : string) (l1 l2 : list (string * string)) :
  written_for k (l1 ++ l2) = written_for k l1 ++ written_for k l2.
Proof. unfold written_for. by rewrite filter_app, map_app. Qed.

(** What [Encode] writes for a key is the values of the key, in their
    order. *)
Lemma Encode_pairs_key (v : Values) (k : string) :
  written_for k (Encode_pairs v) = values_of v k.
Proof.
  unfold Encode_pairs.
  destruct (Encode_keys v) as (_ & Hnodup & Hdom).
  set (keys := sort_Strings (map fst (map_range v))) in *.
  assert (Hgen : ∀ l, NoDup l →
            written_for k (flat_map (λ k0, map (pair k0) (default [] (v !! k0))) l)
            = if decide (k ∈ l) then values_of v k else []).
  { induction l as [|k0 l IH]; intros Hl.
    - destruct (decide (k ∈ [])) as [Hin|_]; [|done].
      by apply elem_of_nil in Hin.
    - apply NoDup_cons in Hl as [Hk0 Hl]. cbn [flat_map].
      rewrite written_for_app, written_for_block, IH by done.
      destruct (decide (k0 = k)) as [->|Hne].
      + destruct (decide (k ∈ l)) as [Hin|_]; [done|].
        destruct (decide (k ∈ k :: l)) as [_|Hnin]; [by rewrite app_nil_r|].
        destruct Hnin. by left.
      + destruct (decide (k ∈ l)) as [Hin|Hnin];
          destruct (decide (k ∈ k0 :: l)) as [Hin'|Hnin']; try done.
        * destruct Hnin'. by right.
        * apply elem_of_cons in Hin' as [?|?]; done. }
  rewrite Hgen by done.
  case_decide as Hin; [done|].
  unfold values_of.
  destruct (v !! k) as [vs|] eqn:E; [|done].
  destruct Hin. apply Hdom. by eexists.
Qed.

(** The keys of the pairs [Encode] writes are in increasing order. *)
Lemma Encode_pairs_sorted (v : Values) :
  StronglySorted string_le (Encode_pairs v).*1.
Proof.
  unfold Encode_pairs.
  destruct (Encode_keys v) as (Hsorted & _ & _).
  set (keys := sort_Strings (map fst (map_range v))) in *.
  clearbody keys.
  induction Hsorted as [|k0 keys Hsorted IH Hall]; simpl; [constructor|].
  rewrite fmap_app. apply StronglySorted_app_2; [| |done].
  - intros k1 k2 Hk1 Hk2.
    apply list_elem_of_fmap in Hk1 as ([k' x'] & -> & Hin1).
    apply list_elem_of_fmap in Hin1 as (y & [= -> ->] & _). simpl.
    apply list_elem_of_fmap in Hk2 as ([k'' x''] & -> & Hin2).
    apply list_elem_of_In, in_flat_map in Hin2 as (k3 & Hk3 & Hin2).
    apply list_elem_of_In, list_elem_of_fmap in Hin2 as (z & [= -> ->] & _).
    simpl. rewrite Forall_forall in Hall. apply Hall.
    by apply list_elem_of_In.
  - induction (default [] (v !! k0)) as [|x xs IHx]; simpl; constructor;
      [done|].
    apply Forall_forall. intros k Hk.
    apply list_elem_of_fmap in Hk as ([k' x'] & -> & Hin).
    apply list_elem_of_fmap in Hin as (y & [= -> ->] & _). simpl. done.
Qed.

(** C8 (as amended): when a request is built with options for a path
    that carries query parameters, the query of the built URL is the
    encoding of pairs in which every key has the values of the options
    followed by the values of the path, none lost and none overwritten;
    the pairs are written with their keys in increasing order. *)
Theorem C8_query_merge (cr : Credentials) (method relPath : string)
    (body : option (string + string)) (optionsQuery : Values)
    (rel : URL) (req : Request) :
  url_Parse relPath = inl rel →
  NewRequest cr method relPath body (Some (inl optionsQuery)) = inl req →
  let pathQuery := URL_Query (url_ResolveReference (baseURL cr) rel) in
  ∃ pairs : list (string * string),
    RawQuery (ReqURL req) =
      Join (map (λ kv, QueryEscape kv.1 +:+ "=" +:+ QueryEscape kv.2) pairs) "&" ∧
    StronglySorted string_le pairs.*1 ∧
    ∀ k, written_for k pairs =
         values_of optionsQuery k ++ values_of pathQuery k.
Proof.
  intros Hrel Hreq pathQuery.
  unfold NewRequest in Hreq. rewrite Hrel in Hreq.
  set (merged := add_path_values optionsQuery (map_range pathQuery)) in *.
  exists (Encode_pairs merged).
  split; [|split].
  - destruct body as [[js|e]|]; try done;
      repeat case_decide; by injection Hreq as <-.
  - apply Encode_pairs_sorted.
  - intros k. rewrite Encode_pairs_key. apply add_path_values_spec.
Qed.

End RequestBuilder.

Lemma C8_query_merge_witness :
  ∃ req : Request,
    NewRequest credentials0 "GET" "products.json?limit=1" None
      (Some (inl options_limit_fields)) = inl req ∧
    ∃ pairs : list (string * string),
      RawQuery (ReqURL req) =
        Join (map (λ kv, QueryEscape kv.1 +:+ "=" +:+ QueryEscape kv.2) pairs)
          "&" ∧
      StronglySorted string_le pairs.*1 ∧
      ∀ k, written_for k pairs =
           values_of options_limit_fields k ++
           values_of (URL_Query
                        (url_ResolveReference (baseURL credentials0)
                           (mkURL "" "" "products.json" "limit=1"))) k.
Proof.
  eexists. split; [vm_compute; reflexivity|].
  match goal with
  | |- ∃ pairs, RawQuery (ReqURL ?req) = _ ∧ _ =>
      apply (C8_query_merge credentials0 "GET" "products.json?limit=1" None
               options_limit_fields (mkURL "" "" "products.json" "limit=1") req)
  end.
  - vm_compute. reflexivity.
  - vm_compute. reflexivity.
Defined.

(** C8, the claim as stated, fails on a path with the parameter
    [limit=1] and the options [limit=2] and [fields=id]: both sets are
    in the query, but the parameter of the path is written last, after
    the parameters of the options, not before them. *)
Lemma C8_counterexample :
  URL_Query (url_ResolveReference (baseURL credentials0)
               (mkURL "" "" "products.json" "limit=1"))
    = <["limit" := ["1"]]> ∅ ∧
  ∃ req : Request,
    NewRequest credentials0 "GET" "products.json?limit=1" None
      (Some (inl options_limit_fields)) = inl req ∧
    RawQuery (ReqURL req) = "fields=id&limit=2&limit=1" ∧
    RawQuery (ReqURL req) ≠ "limit=1&fields=id&limit=2" ∧
    RawQuery (ReqURL req) ≠ "limit=1&limit=2&fields=id".
Proof.
  split; [vm_compute; reflexivity|].
  eexists. split; [vm_compute; reflexivity|].
  simpl. repeat split; discriminate.
Qed.

(** * Further properties of the engine *)

(** ** The classifier on every response *)

Section ClassifierTotal.
Context `{EncodingJSON} `{Fmt} `{Strconv} `{Runtime}.

Lemma wrapSpecificError_cases (r : Response) (err : ResponseError) :
  (Status err = StatusTooManyRequests ∧
   wrapSpecificError r err =
     RateLimitError err
       (int_of_f64 (ParseFloat (Header_Get (Header r) "Retry-After")).1)) ∨
  (Status err ≠ StatusTooManyRequests ∧
   ∃ msg, wrapSpecificError r err =
            ResponseError_ (mkResponseError (Status err) msg (Errors err)) ∧
          msg = if Status err =? StatusNotAcceptable then "Not Acceptable"
                else Message err).
Proof.
  unfold wrapSpecificError.
  destruct (Status err =? StatusTooManyRequests) eqn:E.
  - left. by apply Z.eqb_eq in E.
  - right. apply Z.eqb_neq in E. split; [done|].
    destruct (Status err =? StatusNotAcceptable); eexists; split; try done.
    by destruct err.
Qed.

(** The loop over a map-shaped [errors] field panics exactly when one of
    the values is nil. *)
Lemma flatten_entries_panics (kvs : list (string * GoValue)) (re : ResponseError) :
  flatten_entries kvs re = Panics ↔ ∃ k, (k, GoNil) ∈ kvs.
Proof.
  split.
  - revert re. induction kvs as [|[k v] kvs IH]; intros re; [done|].
    simpl. destruct v;
      try (intros Hp; destruct (IH _ Hp) as [k' Hk']; exists k'; by right).
    intros _. exists k. by left.
  - intros [k Hin]. revert re.
    induction kvs as [|[k' v] kvs IH]; intros re; [by apply elem_of_nil in Hin|].
    apply elem_of_cons in Hin as [[= <- <-]|Hin]; [done|].
    simpl. destruct v; auto.
Qed.

(** The loop keeps the status of the error it is given. *)
Lemma flatten_entries_Status (kvs : list (string * GoValue))
    (re re' : ResponseError) :
  flatten_entries kvs re = Returns re' → Status re' = Status re.
Proof.
  revert re. induction kvs as [|[k v] kvs IH]; intros re; simpl.
  - by intros [= <-].
  - destruct v; try done; intros Hr; rewrite (IH _ Hr); try done.
    by rewrite fold_add_topic.
Qed.

(** The check passes exactly for the statuses from 200 to 299. *)
Lemma CheckResponseError_passes (r : Response) :
  CheckResponseError r = Returns None ↔
  StatusOK ≤ StatusCode r < StatusMultipleChoices.
Proof.
  unfold CheckResponseError.
  destruct ((StatusOK <=? StatusCode r) &&
            (StatusCode r <? StatusMultipleChoices)) eqn:E.
  - apply andb_true_iff in E as [?%Z.leb_le ?%Z.ltb_lt]. split; [lia|done].
  - apply andb_false_iff in E.
    split; [|intros [?%Z.leb_le ?%Z.ltb_lt]; destruct E; congruence].
    destruct (RespBody r) as [body|e]; [|done].
    destruct (if decide (body = "") then _ else _) as [[e v]|msg]; [|done].
    destruct v; try done.
    by destruct (flatten_entries _ _).
Qed.

(** X1: the classifier returns no error exactly for the statuses from
    200 to 299, whatever the body of the response holds. *)
Theorem CheckResponseError_nil_iff (r : Response) :
  CheckResponseError r = Returns None ↔
  StatusOK ≤ StatusCode r < StatusMultipleChoices.
Proof. apply CheckResponseError_passes. Qed.

(** X2: the classifier panics exactly on a response outside 200 to 299
    whose body decodes to an [errors] object with a null among its
    values, whatever the order the runtime ranges over the object. *)
Theorem CheckResponseError_panics_iff (r : Response) :
  CheckResponseError r = Panics ↔
  ¬ (StatusOK ≤ StatusCode r < StatusMultipleChoices) ∧
  ∃ body error_field m k,
    RespBody r = inl body ∧ body ≠ "" ∧
    Unmarshal_shopifyError body = inl (error_field, GoMap m) ∧
    m !! k = Some GoNil.
Proof.
  unfold CheckResponseError.
  destruct ((StatusOK <=? StatusCode r) &&
            (StatusCode r <? StatusMultipleChoices)) eqn:E.
  - apply andb_true_iff in E as [?%Z.leb_le ?%Z.ltb_lt].
    split; [done|]. intros [Hn _]. lia.
  - assert (Hout : ¬ (StatusOK ≤ StatusCode r < StatusMultipleChoices)).
    { apply andb_false_iff in E.
      intros [?%Z.leb_le ?%Z.ltb_lt]. destruct E; congruence. }
    destruct (RespBody r) as [body|e].
    2: { split; [done|]. by intros (_ & ? & ? & ? & ? & ? & _). }
    destruct (decide (body = "")) as [->|Hne].
    { split; [done|]. by intros (_ & ? & ? & ? & ? & [= <-] & ? & _). }
    destruct (Unmarshal_shopifyError body) as [[e v]|msg] eqn:Hdec.
    2: { split; [done|].
         intros (_ & ? & ? & ? & ? & [= <-] & _ & Hd & _). congruence. }
    assert (Hother : (∀ m, v ≠ GoMap m) →
              ¬ ∃ body0 error_field m k,
                  @inl string string body = inl body0 ∧ body0 ≠ "" ∧
                  Unmarshal_shopifyError body0 = inl (error_field, GoMap m) ∧
                  m !! k = Some GoNil).
    { intros Hv (? & ? & m & ? & [= <-] & _ & Hd & _).
      rewrite Hdec in Hd. injection Hd as _ ->. by destruct (Hv m). }
    destruct v as [|b|f|s|elems|m];
      try (split; [done|]; intros [_ Hex]; by destruct Hother).
    destruct (flatten_entries (map_range m) _) as [re|] eqn:Hfl.
    + split; [done|].
      intros (_ & ? & ? & m' & k & [= <-] & _ & Hd & Hk).
      rewrite Hdec in Hd. injection Hd as _ <-.
      assert (Hp : flatten_entries (map_range m)
                     (mkResponseError (StatusCode r) e []) = Panics).
      { apply flatten_entries_panics. exists k.
        rewrite (map_range_perm m). by apply elem_of_map_to_list. }
      congruence.
    + split; [|done]. intros _. split; [done|].
      apply flatten_entries_panics in Hfl as [k Hk].
      rewrite (map_range_perm m) in Hk. apply elem_of_map_to_list in Hk.
      by exists body, e, m, k.
Qed.

(** X3: what an error of the classifier says about the response.  A
    [ResponseError] carries the status of the response, which is not
    429; a [RateLimitError] occurs only for a 429 and carries the whole
    seconds of the retry-after header; a decoding error carries the
    status and the non-empty body; any other error is the error of
    reading the body. *)
Theorem CheckResponseError_kinds (r : Response) (err : error) :
  CheckResponseError r = Returns (Some err) →
  match err with
  | ResponseError_ re =>
      Status re = StatusCode r ∧ StatusCode r ≠ StatusTooManyRequests
  | RateLimitError re ra =>
      Status re = StatusCode r ∧ StatusCode r = StatusTooManyRequests ∧
      ra = int_of_f64 (ParseFloat (Header_Get (Header r) "Retry-After")).1
  | ResponseDecodingError body msg status =>
      status = StatusCode r ∧ RespBody r = inl body ∧ body ≠ "" ∧
      Unmarshal_shopifyError body = inr msg
  | OtherError e => RespBody r = inr e
  | NumError _ _ _ => False
  end.
Proof.
  unfold CheckResponseError.
  destruct (_ && _); [done|].
  destruct (RespBody r) as [body|e]; [|by intros [= <-]].
  assert (Hwrap : ∀ re, Status re = StatusCode r →
            Returns (Some (wrapSpecificError r re)) = Returns (Some err) →
            match err with
            | ResponseError_ re =>
                Status re = StatusCode r ∧ StatusCode r ≠ StatusTooManyRequests
            | RateLimitError re ra =>
                Status re = StatusCode r ∧ StatusCode r = StatusTooManyRequests ∧
                ra = int_of_f64 (ParseFloat (Header_Get (Header r) "Retry-After")).1
            | ResponseDecodingError body0 msg status =>
                status = StatusCode r ∧
                @inl string string body = inl body0 ∧ body0 ≠ "" ∧
                Unmarshal_shopifyError body0 = inr msg
            | OtherError e => @inl string string body = inr e
            | NumError _ _ _ => False
            end).
  { intros re Hre [= <-].
    destruct (wrapSpecificError_cases r re) as [[H429 ->]|(Hne & msg & -> & _)];
      simpl; rewrite <- ?Hre; done. }
  destruct (decide (body = "")) as [->|Hne].
  { by apply Hwrap. }
  destruct (Unmarshal_shopifyError body) as [[e v]|msg] eqn:Hdec;
    [|by intros [= <-]].
  destruct v as [|b|f|s|elems|m]; try (by apply Hwrap).
  destruct (flatten_entries (map_range m) _) as [re|] eqn:Hfl; [|done].
  apply Hwrap. by rewrite (flatten_entries_Status _ _ _ Hfl).
Qed.

(** X5: [ResponseError.Error] never renders the empty string, and
    renders the message whenever there is one. *)
Theorem ResponseError_Error_nonempty (e : ResponseError) :
  ResponseError_Error e ≠ "" ∧
  (Message e ≠ "" → ResponseError_Error e = Message e).
Proof.
  unfold ResponseError_Error. split.
  - destruct (decide (Message e ≠ "")); [done|]. simpl.
    destruct (decide (Join (sort_Strings (Errors e)) ", " ≠ "")); done.
  - intros Hm. by rewrite decide_True.
Qed.

(** X4: a response outside 200 to 299 with an empty body gives an error
    of the package whose rendering is the status text for a 406 and
    [Unknown Error] for every other status, the 429 included. *)
Theorem empty_body_error (r : Response) :
  ¬ (StatusOK ≤ StatusCode r < StatusMultipleChoices) →
  RespBody r = inl "" →
  ∃ err, CheckResponseError r = Returns (Some err) ∧
    embedded_ResponseError err =
      Some (mkResponseError (StatusCode r)
              (if StatusCode r =? StatusNotAcceptable then "Not Acceptable"
               else "") []) ∧
    Error_string err =
      Some (if StatusCode r =? StatusNotAcceptable then "Not Acceptable"
            else "Unknown Error").
Proof.
  intros Hstatus Hbody. unfold CheckResponseError.
  replace ((StatusOK <=? StatusCode r) && (StatusCode r <? StatusMultipleChoices))
    with false by (symmetry; apply andb_false_iff; lia).
  rewrite Hbody. simpl.
  eexists. split; [reflexivity|].
  unfold wrapSpecificError. simpl.
  destruct (StatusCode r =? StatusTooManyRequests) eqn:E429.
  - apply Z.eqb_eq in E429. rewrite E429. by vm_compute.
  - destruct (StatusCode r =? StatusNotAcceptable); by vm_compute.
Qed.

End ClassifierTotal.

Lemma CheckResponseError_kinds_witness :
  Status (mkResponseError 429 "" []) = StatusCode resp_429 ∧
  StatusCode resp_429 = StatusTooManyRequests ∧
  2 = int_of_f64 (ParseFloat (Header_Get (Header resp_429) "Retry-After")).1.
Proof.
  apply (CheckResponseError_kinds resp_429
           (RateLimitError (mkResponseError 429 "" []) 2)).
  vm_compute. reflexivity.
Defined.

Lemma empty_body_error_witness :
  ∃ err, CheckResponseError resp_503 = Returns (Some err) ∧
    embedded_ResponseError err = Some (mkResponseError 503 "" []) ∧
    Error_string err = Some "Unknown Error".
Proof.
  apply (empty_body_error resp_503).
  - vm_compute. intros [_ Hlt]. discriminate Hlt.
  - reflexivity.
Defined.

(** ** The transport executor: bounds and invariants *)

Lemma wrap64_int (z : Z) : is_int z → wrap64 z = z.
Proof.
  unfold is_int, wrap64, MinInt64, MaxInt64.
  change (2 ^ 63) with 9223372036854775808.
  change (2 ^ 64) with 18446744073709551616.
  intros Hz. rewrite Z.mod_small; lia.
Qed.

Lemma sends_app (l1 l2 : list Event) : sends (l1 ++ l2) = sends l1 ++ sends l2.
Proof. apply omap_app. Qed.

Lemma time_sleeps_app (l1 l2 : list Event) :
  time_sleeps (l1 ++ l2) = time_sleeps l1 ++ time_sleeps l2.
Proof. apply omap_app. Qed.

Lemma client_sleeps_app (l1 l2 : list Event) :
  client_sleeps (l1 ++ l2) = client_sleeps l1 ++ client_sleeps l2.
Proof. apply omap_app. Qed.

Section TransportBounds.
Context `{EncodingJSON} `{Fmt} `{Strconv} `{Runtime}.

(** The loop, counted: it takes at least one round trip and at most as
    many as the budget (one when the budget is below one), sends the
    same body at every attempt, sleeps fewer times than it sends, and
    counts its attempts. *)
Lemma retry_loop_counted (body : option string) (script : list RoundTrip)
    (k n : Z) (tr : list Event) (ex : LoopExit) :
  MinInt64 ≤ k → 0 ≤ n → n + Z.max 1 k ≤ MaxInt64 →
  retry_loop body script k n tr = Done ex →
  ∃ (consumed : list RoundTrip) (evs : list Event),
    script = consumed ++ le_script ex ∧
    le_trace ex = tr ++ evs ∧
    (1 ≤ length consumed)%nat ∧
    Z.of_nat (length consumed) ≤ Z.max 1 k ∧
    le_attempts ex = n + Z.of_nat (length consumed) ∧
    sends evs = replicate (length consumed) body ∧
    (length (time_sleeps evs) < length consumed)%nat ∧
    client_sleeps evs = [].
Proof.
  revert k n tr.
  induction script as [|rt script IH]; intros k n tr Hk Hn Hmax Hrun; [done|].
  assert (Hadd : int_add n 1 = n + 1).
  { apply wrap64_int. unfold is_int, MinInt64, MaxInt64 in *. lia. }
  assert (Hstop : ∀ result,
            Done (mkLoopExit (int_add n 1) (tr ++ [EvSend body]) script result)
              = Done ex →
            ∃ consumed evs,
              rt :: script = consumed ++ le_script ex ∧
              le_trace ex = tr ++ evs ∧
              (1 ≤ length consumed)%nat ∧
              Z.of_nat (length consumed) ≤ Z.max 1 k ∧
              le_attempts ex = n + Z.of_nat (length consumed) ∧
              sends evs = replicate (length consumed) body ∧
              (length (time_sleeps evs) < length consumed)%nat ∧
              client_sleeps evs = []).
  { intros result [= <-]. exists [rt], [EvSend body]. simpl.
    repeat split; try done; lia. }
  assert (Hrec : ∀ (evs0 : list Event),
            1 < k →
            sends evs0 = [body] → (length (time_sleeps evs0) ≤ 1)%nat →
            client_sleeps evs0 = [] →
            retry_loop body script (int_sub k 1) (int_add n 1) (tr ++ evs0)
              = Done ex →
            ∃ consumed evs,
              rt :: script = consumed ++ le_script ex ∧
              le_trace ex = tr ++ evs ∧
              (1 ≤ length consumed)%nat ∧
              Z.of_nat (length consumed) ≤ Z.max 1 k ∧
              le_attempts ex = n + Z.of_nat (length consumed) ∧
              sends evs = replicate (length consumed) body ∧
              (length (time_sleeps evs) < length consumed)%nat ∧
              client_sleeps evs = []).
  { intros evs0 Hk1 Hs0 Ht0 Hc0 Hrun'.
    assert (Hsub : int_sub k 1 = k - 1).
    { apply wrap64_int. unfold is_int, MinInt64, MaxInt64 in *. lia. }
    rewrite Hsub, Hadd in Hrun'.
    assert (Hk' : MinInt64 ≤ k - 1) by (unfold MinInt64 in *; lia).
    assert (Hn' : 0 ≤ n + 1) by lia.
    assert (Hmax' : n + 1 + Z.max 1 (k - 1) ≤ MaxInt64) by lia.
    destruct (IH (k - 1) (n + 1) (tr ++ evs0) Hk' Hn' Hmax' Hrun')
      as (consumed & evs & -> & Htr & Hlen & Hle & Hatt & Hs & Ht & Hc).
    exists (rt :: consumed), (evs0 ++ evs). simpl.
    rewrite sends_app, time_sleeps_app, client_sleeps_app, length_app.
    rewrite Hs0, Hs, Hc0, Hc, Htr, app_assoc.
    repeat split; try done; lia. }
  rewrite retry_loop_attempt in Hrun. destruct rt as [resp|e].
  - destruct (CheckResponseError resp) as [[respErr|]|]; [| |done].
    + destruct (1 <? k) eqn:Hk1; simpl in Hrun; [|by apply Hstop in Hrun].
      apply Z.ltb_lt in Hk1.
      destruct (is_RateLimitError respErr).
      * revert Hrun. by apply Hrec.
      * destruct (StatusCode resp =? StatusServiceUnavailable);
          [|by apply Hstop in Hrun].
        revert Hrun. apply Hrec; try done. simpl. lia.
    + by apply Hstop in Hrun.
  - by apply Hstop in Hrun.
Qed.

Context {V : Type}.
Variable Decode : string → V → V * option string.



(** X8: a call changes neither the retry budget nor the path prefix of
    the client, and changes its version only by replacing the default
    version with the version header of a last response with a status
    from 200 to 299; this happens before the body is decoded, so also
    when decoding fails. *)
Theorem doGetHeaders_version (c : Client) (script : list RoundTrip)
    (tr : list Event) (body : option string) (v : option V) (ex : DoExit V) :
  doGetHeaders Decode c script tr body v = Done ex →
  ∃ (consumed : list RoundTrip) (rt : RoundTrip),
    script = consumed ++ rt :: de_script ex ∧
    retries (de_client ex) = retries c ∧
    pathPrefix (de_client ex) = pathPrefix c ∧
    apiVersion (de_client ex) = version_after c rt.
Proof.
  intros Hrun.
  assert (Hinv := doGetHeaders_inv _ _ _ _ _ _ _ Hrun).
  destruct Hinv as (lex & Hloop & Hscript & _ & _ & Hret & _).
  destruct (retry_loop_run _ _ _ _ _ _ Hloop)
    as (consumed & rt & evs & Hcons & _ & _ & Hend).
  exists consumed, rt. rewrite Hscript. split; [done|]. split; [done|].
  unfold doGetHeaders in Hrun. simpl in Hrun. rewrite Hloop in Hrun.
  destruct lex as [n tr' script' [resp|err]]; simpl in *.
  - destruct Hend as [-> Hok].
    apply CheckResponseError_passes in Hok as [?%Z.leb_le ?%Z.ltb_lt].
    unfold version_after.
    replace ((StatusOK <=? StatusCode resp) &&
             (StatusCode resp <? StatusMultipleChoices)) with true
      by (symmetry; by apply andb_true_iff).
    set (c1 := if decide _ then _ else _) in Hrun.
    assert (Hc1 : pathPrefix c1 = pathPrefix c ∧
                  apiVersion c1 =
                    if true
                       && bool_decide (apiVersion c = defaultApiVersion)
                       && negb (bool_decide
                                  (Header_Get (Header resp)
                                     "X-Shopify-API-Version" = ""))
                    then Header_Get (Header resp) "X-Shopify-API-Version"
                    else apiVersion c).
    { subst c1. simpl.
      destruct (decide (apiVersion c = defaultApiVersion ∧ _)) as [[Hv Hh]|Hn];
        simpl.
      - rewrite bool_decide_eq_true_2 by done.
        by rewrite bool_decide_eq_false_2 by done.
      - split; [done|].
        destruct (bool_decide (apiVersion c = defaultApiVersion)) eqn:E1;
          [|done].
        destruct (bool_decide (_ = "")) eqn:E2; [done|].
        apply bool_decide_eq_true in E1. apply bool_decide_eq_false in E2.
        by destruct Hn. }
    destruct Hc1 as [Hp Hv].
    destruct v as [x|]; [destruct (RespBody resp) as [bytes|e]|].
    + destruct (Decode bytes x) as [x' [e|]]; injection Hrun as <-; by simpl.
    + injection Hrun as <-. by simpl.
    + injection Hrun as <-. by simpl.
  - injection Hrun as <-. simpl. split; [done|].
    unfold version_after.
    destruct Hend as [(e & -> & _)|(resp & -> & Herr)]; [done|].
    assert (Hnot : (StatusOK <=? StatusCode resp) &&
                   (StatusCode resp <? StatusMultipleChoices) = false).
    { apply not_true_is_false. intros [?%Z.leb_le ?%Z.ltb_lt]%andb_true_iff.
      assert (CheckResponseError resp = Returns None)
        by (by apply CheckResponseError_passes).
      congruence. }
    by rewrite Hnot.
Qed.

End TransportBounds.



Lemma doGetHeaders_version_witness :
  ∃ ex : DoExit unit,
    doGetHeaders failing_decode (client0 1) [inl resp_200_versioned]
      [] None (Some tt) = Done ex ∧
    ∃ (consumed : list RoundTrip) (rt : RoundTrip),
      [inl resp_200_versioned] = consumed ++ rt :: de_script ex ∧
      retries (de_client ex) = retries (client0 1) ∧
      pathPrefix (de_client ex) = pathPrefix (client0 1) ∧
      apiVersion (de_client ex) = version_after (client0 1) rt.
Proof.
  eexists. split; [vm_compute; reflexivity|].
  apply (doGetHeaders_version failing_decode (client0 1)
           [inl resp_200_versioned] [] None (Some tt)).
  vm_compute. reflexivity.
Defined.

(** ** The pagination extractor: cursors *)

Lemma Atoi_int (s : string) : is_int (Atoi s).1.
Proof.
  unfold Atoi, is_int.
  destruct (match s with
            | String "-" r => (true, r)
            | String "+" r => (false, r)
            | _ => (false, s)
            end) as [neg digits].
  assert (MinInt64 ≤ 0 ≤ MaxInt64) by (by vm_compute).
  assert (MinInt64 ≤ MaxInt64) by (by vm_compute).
  destruct digits; [done|].
  destruct (parse_digits _ 0) as [n|]; [|done].
  destruct (_ <? MinInt64) eqn:E1; simpl; [lia|].
  destruct (MaxInt64 <? _) eqn:E2; simpl; [lia|].
  apply Z.ltb_ge in E1, E2. lia.
Qed.

Section Cursors.
Context `{NetURL}.

(** An entry that is processed without error builds one cursor, the same
    whatever the pagination so far, and stores it on the side its
    relation names, leaving the other side alone. *)
Lemma extract_link_cursor (link : string) (p0 p : Pagination) :
  extract_link link p0 = inl p →
  ∃ o : ListOptions,
    is_cursor o ∧ link_cursor link = Some o ∧
    is_previous_link link = negb (is_next_link link) ∧
    p = (if is_next_link link
         then mkPagination (Some o) (PreviousPageOptions p0)
         else mkPagination (NextPageOptions p0) (Some o)).
Proof.
  unfold link_cursor, extract_link, is_next_link, is_previous_link.
  destruct (linkRegex_match_shape link) as [->|(url & rel & -> & _ & Hrel)];
    [done|].
  destruct (url_Parse url) as [u|e]; [|done].
  destruct (url_ParseQuery (RawQuery u)) as [params [e|]]; [done|].
  case_decide as Hinfo; [done|].
  assert (Hint := Atoi_int (Values_Get params "limit")).
  destruct (decide (Values_Get params "limit" ≠ "")) as [Hl|Hl].
  - destruct (Atoi (Values_Get params "limit")) as [n [err|]]; [done|].
    simpl in Hint.
    destruct Hrel as [-> | ->]; simpl; intros [= <-]; eexists;
      (split; [|split; [reflexivity|split; reflexivity]]);
      unfold is_cursor; simpl;
      (split; [done|split; [done || by vm_compute|done]]).
  - destruct Hrel as [-> | ->]; simpl; intros [= <-]; eexists;
      (split; [|split; [reflexivity|split; reflexivity]]);
      unfold is_cursor; simpl;
      (split; [done|split; [done || by vm_compute|done]]).
Qed.

Lemma extract_links_cursors (links : list string) (p0 p : Pagination) :
  extract_links links p0 = inl p →
  (∀ o, NextPageOptions p0 = Some o → is_cursor o) →
  (∀ o, PreviousPageOptions p0 = Some o → is_cursor o) →
  (∀ o, NextPageOptions p = Some o → is_cursor o) ∧
  (∀ o, PreviousPageOptions p = Some o → is_cursor o).
Proof.
  revert p0. induction links as [|link links IH]; intros p0; simpl.
  - by intros [= <-].
  - destruct (extract_link link p0) as [p1|err] eqn:E; [|done].
    intros Hrest Hn Hp. apply (IH _ Hrest).
    + destruct (extract_link_cursor _ _ _ E) as (o & Ho & _ & _ & ->).
      destruct (is_next_link link); simpl; [by intros ? [= <-]|done].
    + destruct (extract_link_cursor _ _ _ E) as (o & Ho & _ & _ & ->).
      destruct (is_next_link link); simpl; [done|by intros ? [= <-]].
Qed.

Lemma extract_links_previous (links : list string) (p0 p : Pagination) :
  extract_links links p0 = inl p →
  is_Some (PreviousPageOptions p) ↔
  is_Some (PreviousPageOptions p0) ∨ existsb is_previous_link links = true.
Proof.
  revert p0. induction links as [|link links IH]; intros p0; simpl.
  - intros [= <-]. split; [by left|]. intros [?|?]; done.
  - destruct (extract_link link p0) as [p1|err] eqn:E; [|done].
    intros Hrest. rewrite (IH _ Hrest), orb_true_iff.
    destruct (extract_link_cursor _ _ _ E) as (o & _ & _ & -> & ->).
    destruct (is_next_link link); simpl.
    + split; [intros [?|?]|intros [?|[?|?]]]; auto. done.
    + split; intros _; [right|]; by left.
Qed.

Lemma extract_links_some (links : list string) (p0 p : Pagination) :
  extract_links links p0 = inl p → links ≠ [] →
  is_Some (NextPageOptions p) ∨ is_Some (PreviousPageOptions p).
Proof.
  destruct links as [|link links]; [done|]. simpl.
  destruct (extract_link link p0) as [p1|err] eqn:E; [|done].
  intros Hrest _.
  destruct (extract_link_cursor _ _ _ E) as (o & _ & _ & _ & ->).
  destruct (is_next_link link).
  - left. apply (extract_links_next _ _ _ Hrest). by left.
  - right. apply (extract_links_previous _ _ _ Hrest). by left.
Qed.

Lemma Split_not_nil (s : string) (sep : ascii) : Split s sep ≠ [].
Proof.
  destruct s as [|c s]; simpl; [done|].
  destruct (Ascii.eqb c sep); [done|]. by destruct (Split s sep).
Qed.

(** The next cursor after the loop is the one of the last entry with the
    relation [next]. *)
Lemma extract_links_last_next (before : list string) (link : string)
    (after : list string) (p0 p : Pagination) :
  extract_links (before ++ link :: after) p0 = inl p →
  is_next_link link = true →
  existsb is_next_link after = false →
  NextPageOptions p = link_cursor link ∧ is_Some (link_cursor link).
Proof.
  revert p0. induction before as [|l before IH]; intros p0; simpl.
  - destruct (extract_link link p0) as [p1|err] eqn:E; [|done].
    destruct (extract_link_cursor _ _ _ E) as (o & _ & -> & _ & ->).
    intros Hrest Hlink Hafter. rewrite Hlink in Hrest. split; [|done].
    clear E Hlink. revert Hrest Hafter. generalize (PreviousPageOptions p0).
    induction after as [|a after IHa]; intros prev; simpl.
    + by intros [= <-].
    + destruct (extract_link a _) as [p2|err] eqn:E2; [|done].
      intros Hrest [Ha Hafter]%orb_false_iff.
      destruct (extract_link_cursor _ _ _ E2) as (o2 & _ & _ & _ & ->).
      rewrite Ha in Hrest. simpl in Hrest. by apply (IHa _ Hrest).
  - destruct (extract_link l p0) as [p1|err]; [apply IH|done].
Qed.


(** X10: when the extractor returns a pagination, its previous cursor
    is present exactly when the header has an entry with the relation
    [previous], and a header that is not empty gives at least one of
    the two cursors. *)
Theorem extractPagination_previous (linkHeader : string) (p : Pagination) :
  extractPagination linkHeader = inl p →
  (is_Some (PreviousPageOptions p) ↔
     linkHeader ≠ "" ∧
     existsb is_previous_link (Split linkHeader ",") = true) ∧
  (linkHeader ≠ "" →
     is_Some (NextPageOptions p) ∨ is_Some (PreviousPageOptions p)).
Proof.
  unfold extractPagination. case_decide as Hempty.
  - intros [= <-]. simpl. split; [|done]. split; [by intros []|by intros []].
  - intros Hp. split.
    + rewrite (extract_links_previous _ _ _ Hp). simpl.
      split; [intros [[]|]|intros []]; auto. done.
    + intros _. apply (extract_links_some _ _ _ Hp), Split_not_nil.
Qed.

(** X11: when a header names the relation [next] more than once, the
    last such entry wins: the next cursor of the pagination returned is
    the cursor that entry gives on its own. *)
Theorem extractPagination_last_next (linkHeader : string)
    (before : list string) (link : string) (after : list string)
    (p : Pagination) :
  extractPagination linkHeader = inl p →
  Split linkHeader "," = before ++ link :: after →
  is_next_link link = true →
  existsb is_next_link after = false →
  NextPageOptions p = link_cursor link ∧ is_Some (link_cursor link).
Proof.
  unfold extractPagination. case_decide as Hempty.
  - subst linkHeader. simpl. intros _ Hsplit.
    by destruct before as [|? [|]]; simplify_eq; destruct link.
  - intros Hp Hsplit. rewrite Hsplit in Hp.
    apply (extract_links_last_next _ _ _ _ _ Hp).
Qed.

End Cursors.


Lemma extractPagination_previous_witness :
  ∃ p : Pagination,
    extractPagination header_next_previous = inl p ∧
    (is_Some (PreviousPageOptions p) ↔
       header_next_previous ≠ "" ∧
       existsb is_previous_link (Split header_next_previous ",") = true) ∧
    (header_next_previous ≠ "" →
       is_Some (NextPageOptions p) ∨ is_Some (PreviousPageOptions p)).
Proof.
  eexists. split; [vm_compute; reflexivity|].
  apply (extractPagination_previous header_next_previous).
  vm_compute. reflexivity.
Defined.

Lemma extractPagination_last_next_witness :
  ∃ p : Pagination,
    extractPagination header_two_next = inl p ∧
    NextPageOptions p = Some (mkListOptions "bar" 0 5 None "" "" "" []) ∧
    NextPageOptions p =
      link_cursor
        (" " +:+ link_entry "http://valid.url?page_info=bar&limit=5" "next") ∧
    is_Some
      (link_cursor
         (" " +:+ link_entry "http://valid.url?page_info=bar&limit=5" "next")).
Proof.
  eexists. split; [vm_compute; reflexivity|]. split; [reflexivity|].
  apply (extractPagination_last_next header_two_next
           [link_entry "http://valid.url?page_info=foo" "next"]
           (" " +:+ link_entry "http://valid.url?page_info=bar&limit=5" "next")
           []).
  - vm_compute. reflexivity.
  - vm_compute. reflexivity.
  - vm_compute. reflexivity.
  - reflexivity.
Defined.

(** ** The GraphQL loop: the shared retry budget *)

Section GraphQLBudget.
Context `{EncodingJSON} `{Fmt} `{Strconv} `{Runtime} {D : Type}.
Variable Decode : string → graphQLResponse D → graphQLResponse D * option string.

(** A call, counted: what [retry_loop_counted] gives, for the client and
    the events the call leaves. *)
Lemma doGetHeaders_counted {V : Type} (Dec : string → V → V * option string)
    (c : Client) (script : list RoundTrip) (tr : list Event)
    (body : option string) (v : option V) (ex : DoExit V) :
  is_int (retries c) →
  doGetHeaders Dec c script tr body v = Done ex →
  ∃ evs : list Event,
    de_trace ex = tr ++ evs ∧
    sends evs = replicate (Z.to_nat (attempts (de_client ex))) body ∧
    1 ≤ attempts (de_client ex) ≤ Z.max 1 (retries c) ∧
    client_sleeps evs = [] ∧
    retries (de_client ex) = retries c.
Proof.
  intros [Hlo Hhi] Hrun.
  destruct (doGetHeaders_inv _ _ _ _ _ _ _ Hrun)
    as (lex & Hloop & _ & Htr & Hatt & Hret & _).
  destruct (retry_loop_counted _ _ _ _ _ _ Hlo ltac:(done)
              ltac:(unfold MaxInt64 in *; lia) Hloop)
    as (consumed & evs & _ & Hevs & Hlen & Hle & Hn & Hs & _ & Hc).
  exists evs. rewrite Htr, Hatt, Hn, Hs.
  replace (Z.to_nat (0 + Z.of_nat (length consumed))) with (length consumed)
    by lia.
  repeat split; try done; lia.
Qed.

Lemma client_after_round_fields (c : Client) (total : Z)
    (gr : graphQLResponse D) :
  retries (client_after_round c total gr) = retries c ∧
  attempts (client_after_round c total gr) = total.
Proof. unfold client_after_round. by destruct (gr_Extensions gr). Qed.

(** The loop over the errors asks for another round only below the
    limit. *)
Lemma scan_errors_retry (errs : list graphQLError) (total limit : Z)
    (ra : float64) (re re' : ResponseError) :
  scan_errors errs total limit ra re false = inr (re', true) →
  total < limit.
Proof.
  intros Hscan. destruct (decide (total < limit)) as [|Hge]; [done|].
  destruct (existsb throttled errs) eqn:Hthr.
  - rewrite scan_errors_at_limit in Hscan by (done || lia). done.
  - rewrite scan_errors_none_throttled in Hscan by done. done.
Qed.

(** The loop of [Query], counted from a round that starts with [total]
    attempts made. *)
Lemma Query_loop_counted (fuel : nat) (js : string) (c : Client)
    (script : list RoundTrip) (tr : list Event) (total : Z) (resp : D)
    (qx : QueryExit D) :
  MinInt64 ≤ retries c → 2 * retries c ≤ MaxInt64 →
  0 ≤ total ≤ Z.max 0 (retries c - 1) →
  Query_loop Decode fuel (inl js) c script tr total resp = Done qx →
  ∃ evs : list Event,
    qe_trace qx = tr ++ evs ∧
    sends evs =
      replicate (Z.to_nat (attempts (qe_client qx) - total)) (Some js) ∧
    total + 1 ≤ attempts (qe_client qx) ∧
    attempts (qe_client qx) ≤ Z.max 0 (retries c - 1) + Z.max 1 (retries c) ∧
    Z.of_nat (length (client_sleeps evs)) ≤ Z.max 0 (retries c - 1 - total) ∧
    retries (qe_client qx) = retries c.
Proof.
  revert c script tr total resp.
  induction fuel as [|fuel IH]; intros c script tr total resp Hlo Hhi Htot;
    [done|].
  cbn [Query_loop]. simpl Post.
  destruct (doGetHeaders Decode c script tr (Some js) _) as [ex| | |] eqn:HPost;
    try done.
  assert (Hint : is_int (retries c)).
  { split; [done|]. unfold MaxInt64 in *. lia. }
  destruct (doGetHeaders_counted _ _ _ _ _ _ _ Hint HPost)
    as (evs1 & Htr1 & Hs1 & Ha1 & Hc1 & Hr1).
  set (gr := default _ (de_v ex)).
  set (a := attempts (de_client ex)) in *.
  assert (Hadd : int_add total a = total + a).
  { apply wrap64_int. unfold is_int, MinInt64, MaxInt64 in *. lia. }
  rewrite Hadd.
  destruct (client_after_round_fields (de_client ex) (total + a) gr)
    as [Hr2 Ha2].
  set (c2 := client_after_round (de_client ex) (total + a) gr) in *.
  assert (Hstop : ∀ resp' err,
            Done (mkQueryExit c2 (de_trace ex) (de_script ex) resp' err)
              = Done qx →
            ∃ evs,
              qe_trace qx = tr ++ evs ∧
              sends evs =
                replicate (Z.to_nat (attempts (qe_client qx) - total))
                  (Some js) ∧
              total + 1 ≤ attempts (qe_client qx) ∧
              attempts (qe_client qx)
                ≤ Z.max 0 (retries c - 1) + Z.max 1 (retries c) ∧
              Z.of_nat (length (client_sleeps evs))
                ≤ Z.max 0 (retries c - 1 - total) ∧
                        retries (qe_client qx) = retries c).
  { intros resp' err [= <-]. exists evs1. simpl. rewrite Ha2, Hr2, Hr1, Hc1, Hs1.
    replace (total + a - total) with a by lia.
    repeat split; try done; simpl; lia. }
  destruct (gr_Errors gr) as [|err0 errs] eqn:Herrs; [by apply Hstop|].
  destruct (scan_errors _ _ _ _ _ _) as [rl|[re [|]]] eqn:Hscan;
    [by apply Hstop| |by apply Hstop].
  apply scan_errors_retry in Hscan. rewrite Hr2, Hr1 in Hscan.
  intros Hrun. apply IH in Hrun; rewrite ?Hr2, ?Hr1; try done; try lia.
  destruct Hrun as (evs & Htr & Hs & Hge & Hle & Hsl & Hret).
  rewrite Hr2, Hr1 in Hle, Hsl, Hret.
  exists (evs1 ++ [EvClientSleep (int_mul (int_of_f64 (round_wait gr)) Second)]
            ++ evs).
  rewrite Htr, Htr1, <- !app_assoc.
  rewrite !sends_app, !client_sleeps_app, !length_app, Hs, Hs1, Hc1. simpl.
  repeat split; try done; try lia.
  rewrite <- replicate_add. f_equal. lia.
Qed.

(** X12: when [Query] ends, the attempt counter of the client is the
    number of requests sent over all its rounds, at least one, and every
    one of them carried the same encoded query. *)
Theorem Query_attempts_total (fuel : nat) (js : string) (c : Client)
    (script : list RoundTrip) (tr : list Event) (resp : D)
    (qx : QueryExit D) :
  MinInt64 ≤ retries c → 2 * retries c ≤ MaxInt64 →
  Query Decode fuel (inl js) c script tr resp = Done qx →
  ∃ evs : list Event,
    qe_trace qx = tr ++ evs ∧
    sends evs = replicate (Z.to_nat (attempts (qe_client qx))) (Some js) ∧
    1 ≤ attempts (qe_client qx).
Proof.
  intros Hlo Hhi Hrun. unfold Query in Hrun.
  assert (Htot : 0 ≤ 0 ≤ Z.max 0 (retries c - 1)) by lia.
  destruct (Query_loop_counted _ _ _ _ _ _ _ _ Hlo Hhi Htot Hrun)
    as (evs & Htr & Hs & Hge & _).
  exists evs. rewrite Z.sub_0_r in Hs. repeat split; try done; lia.
Qed.

(** X13: the rounds of [Query] and the attempts inside each round draw
    on one retry budget: [Query] calls the client's delay function
    fewer times than the budget, sends fewer requests than twice the
    budget (one when the budget is below one), and leaves the budget as
    it was. *)
Theorem Query_budget (fuel : nat) (js : string) (c : Client)
    (script : list RoundTrip) (tr : list Event) (resp : D)
    (qx : QueryExit D) :
  MinInt64 ≤ retries c → 2 * retries c ≤ MaxInt64 →
  Query Decode fuel (inl js) c script tr resp = Done qx →
  ∃ evs : list Event,
    qe_trace qx = tr ++ evs ∧
    Z.of_nat (length (client_sleeps evs)) ≤ Z.max 0 (retries c - 1) ∧
    Z.of_nat (length (sends evs)) ≤ Z.max 1 (2 * retries c - 1) ∧
    retries (qe_client qx) = retries c.
Proof.
  intros Hlo Hhi Hrun. unfold Query in Hrun.
  assert (Htot : 0 ≤ 0 ≤ Z.max 0 (retries c - 1)) by lia.
  destruct (Query_loop_counted _ _ _ _ _ _ _ _ Hlo Hhi Htot Hrun)
    as (evs & Htr & Hs & Hge & Hle & Hsl & Hret).
  exists evs. rewrite Hs, length_replicate. repeat split; try done; lia.
Qed.


End GraphQLBudget.

Lemma Query_attempts_total_witness :
  ∃ qx : QueryExit unit,
    Query decode_graphql 3 (inl "query") (client0 3) script_throttled_503_ok
      [] tt = Done qx ∧
    ∃ evs : list Event,
      qe_trace qx = [] ++ evs ∧
      sends evs =
        replicate (Z.to_nat (attempts (qe_client qx))) (Some "query") ∧
      1 ≤ attempts (qe_client qx).
Proof.
  eexists. split; [vm_compute; reflexivity|].
  apply (Query_attempts_total decode_graphql 3 "query" (client0 3)
           script_throttled_503_ok [] tt).
  - vm_compute. discriminate.
  - vm_compute. discriminate.
  - vm_compute. reflexivity.
Defined.

Lemma Query_budget_witness :
  ∃ qx : QueryExit unit,
    Query decode_graphql 3 (inl "query") (client0 2) script_throttled_503_ok
      [] tt = Done qx ∧
    ∃ evs : list Event,
      qe_trace qx = [] ++ evs ∧
      Z.of_nat (length (client_sleeps evs)) ≤ Z.max 0 (retries (client0 2) - 1) ∧
      Z.of_nat (length (sends evs)) ≤ Z.max 1 (2 * retries (client0 2) - 1) ∧
      retries (qe_client qx) = retries (client0 2).
Proof.
  eexists. split; [vm_compute; reflexivity|].
  apply (Query_budget decode_graphql 3 "query" (client0 2)
           script_throttled_503_ok [] tt).
  - vm_compute. discriminate.
  - vm_compute. discriminate.
  - vm_compute. reflexivity.
Defined.


(** ** The suggested wait is not negative *)

(** Rounding keeps the sign it is given. *)
Lemma binary_round_aux_sign (s : bool) (m e : Z) (l : location) :
  match binary_round_aux prec emax s m e l with
  | S754_zero s' | S754_infinity s' | S754_finite s' _ _ => s' = s
  | S754_nan => True
  end.
Proof.
  unfold binary_round_aux.
  destruct (shr_fexp prec emax m e l) as [mrs' e'].
  destruct (shr_fexp prec emax _ e' loc_Exact) as [mrs'' e''].
  destruct (shr_m mrs''); [done| |done].
  by destruct (e'' <=? emax - prec).
Qed.

(** A float below zero is a negative infinity or a negative finite
    number. *)
Lemma f64_lt_zero (x : float64) :
  f64_lt x f64_zero = true →
  x = S754_infinity true ∨ ∃ m e, x = S754_finite true m e.
Proof.
  destruct x as [s|[|]| |[|] m e]; try done; [by left|right; eauto].
Qed.

(** X15: the wait [RetryAfterSeconds] suggests is never below zero when
    the restore rate is not below zero and is not the negative zero. *)
Theorem RetryAfterSeconds_not_negative (c : GraphQLCost) :
  f64_lt (RestoreRate (ThrottleStatus c)) f64_zero = false →
  RestoreRate (ThrottleStatus c) ≠ S754_zero true →
  f64_lt (RetryAfterSeconds c) f64_zero = false.
Proof.
  intros Hrate Hzero. unfold RetryAfterSeconds.
  set (diff := match ActualQueryCost c with Some _ => _ | None => _ end).
  destruct (f64_lt diff f64_zero) eqn:Hlt; [|done].
  destruct (RestoreRate (ThrottleStatus c)) as [[|]|[|]| |[|] my ey];
    try done;
    destruct (f64_lt_zero _ Hlt) as [->|(m & e & ->)]; try done.
  unfold f64_div, f64_neg. simpl.
  destruct (SFdiv_core_binary prec emax (Z.pos m) e (Z.pos my) ey)
    as [[mz ez] lz].
  pose proof (binary_round_aux_sign false mz ez lz) as Hs.
  by destruct (binary_round_aux prec emax false mz ez lz) as [|?| |]; subst.
Qed.

Lemma RetryAfterSeconds_not_negative_witness :
  f64_lt (RetryAfterSeconds (mkGraphQLCost 125 None throttle_100_50)) f64_zero
    = false ∧
  RetryAfterSeconds (mkGraphQLCost 125 None throttle_100_50)
    = f64_div (f64_of_int 1) (f64_of_int 2).
Proof.
  split; [|vm_compute; reflexivity].
  apply (RetryAfterSeconds_not_negative (mkGraphQLCost 125 None throttle_100_50)).
  - vm_compute. reflexivity.
  - vm_compute. discriminate.
Defined.

(** ** Requests and their credentials *)

Section Requests.
Context `{NetURL} `{Runtime}.


End Requests.


(** ** Options and request paths *)

Lemma append_assoc (a b c : string) : (a +:+ b) +:+ c = a +:+ (b +:+ c).
Proof.
  induction a as [|x a IH]; [done|].
  change (String x ((a +:+ b) +:+ c) = String x (a +:+ (b +:+ c))).
  by rewrite IH.
Qed.

Lemma Split_app (a b : string) (sep : ascii) :
  Split (a +:+ String sep b) sep = Split a sep ++ Split b sep.
Proof.
  induction a as [|c a IH]; simpl.
  - by rewrite Ascii.eqb_refl.
  - destruct (Ascii.eqb c sep); [by rewrite IH|].
    rewrite IH. pose proof (Split_not_nil a sep).
    by destruct (Split a sep).
Qed.

Lemma is_digit_not_slash (c : ascii) :
  is_digit c = true → Ascii.eqb c "/" = false.
Proof. by destruct c as [[] [] [] [] [] [] [] []]. Qed.

(** A version that goes into the prefix is one path element, and not a
    special one. *)
Lemma valid_version_element (v : string) :
  valid_version v = true →
  Split v "/" = [v] ∧ v ≠ "" ∧ v ≠ "." ∧ v ≠ ".." ∧
  (0 <? Z.of_nat (String.length v)) = true.
Proof.
  unfold valid_version. intros [Hre| ->%bool_decide_eq_true]%orb_true_iff;
    [|by vm_compute].
  destruct v as [|y1 [|y2 [|y3 [|y4 [|d [|m1 [|m2 [|? ?]]]]]]]];
    try (simpl in Hre; discriminate Hre);
    try (destruct d as [[] [] [] [] [] [] [] []]; simpl in Hre;
         discriminate Hre).
  destruct d as [[] [] [] [] [] [] [] []]; try (simpl in Hre; discriminate Hre).
  lazy beta iota delta [apiVersionRegex_MatchString] in Hre.
  do 5 (apply andb_true_iff in Hre as [Hre ?]).
  simpl. rewrite !is_digit_not_slash by done. simpl.
  repeat split; done.
Qed.

Lemma clean_elements_plain (rooted : bool) (elems out : list string) :
  Forall (λ e, e ≠ "..") elems →
  clean_elements rooted elems out =
  rev out ++ filter (λ e, ¬ (e = "" ∨ e = ".")) elems.
Proof.
  intros Helems. revert out.
  induction Helems as [|e elems He _ IH]; intros out; simpl.
  - by rewrite app_nil_r.
  - destruct (decide (e = "" ∨ e = ".")) as [Hd|Hd].
    + by rewrite IH, filter_cons_False by tauto.
    + destruct (decide (e = "..")); [done|].
      rewrite IH, filter_cons_True by done. simpl. by rewrite <- app_assoc.
Qed.

Lemma Join_app (pre rest : list string) (sep : string) :
  pre ≠ [] →
  Join (pre ++ rest) sep =
  Join pre sep +:+ match rest with [] => "" | _ => sep +:+ Join rest sep end.
Proof.
  intros Hpre. induction pre as [|x pre IH]; [done|].
  destruct pre as [|y pre].
  - simpl. destruct rest as [|z rest]; [|done].
    clear. induction x as [|c x IH]; [reflexivity|].
    change (String c x = String c (x +:+ "")). by f_equal.
  - specialize (IH ltac:(done)). simpl in IH |- *.
    rewrite IH. by rewrite !append_assoc.
Qed.

Lemma TrimLeft_slash_other (c : ascii) (s : string) :
  c ≠ "/"%char → TrimLeft_slash (String c s) = String c s.
Proof. by destruct c as [[] [] [] [] [] [] [] []]. Qed.

Lemma TrimLeft_slash_elements (s : string) :
  kept_elements (TrimLeft_slash s) = kept_elements s ∧
  (Forall (λ e, e ≠ "..") (Split s "/") →
   Forall (λ e, e ≠ "..") (Split (TrimLeft_slash s) "/")).
Proof.
  unfold kept_elements. induction s as [|c s IH]; [done|].
  destruct (decide (c = "/"%char)) as [->|Hc].
  - change (TrimLeft_slash (String "/" s)) with (TrimLeft_slash s).
    change (Split (String "/" s) "/") with ("" :: Split s "/").
    rewrite filter_cons_False by tauto.
    split; [apply IH|]. intros Hall. apply IH. by inversion Hall.
  - by rewrite TrimLeft_slash_other.
Qed.

(** Joining a clean, unrooted prefix with a path that has no [..]
    element gives the prefix followed by the elements kept. *)
Lemma path_Join_prefix (c0 : ascii) (pre0 b : string)
    (pre_elems : list string) :
  c0 ≠ "/"%char →
  Split (String c0 pre0) "/" = pre_elems →
  Forall (λ e, ¬ (e = "" ∨ e = ".") ∧ e ≠ "..") pre_elems →
  Join pre_elems "/" = String c0 pre0 →
  Forall (λ e, e ≠ "..") (Split b "/") →
  path_Join (String c0 pre0) b = String c0 pre0 +:+ path_suffix (kept_elements b).
Proof.
  intros Hc0 Hsplit Hpre Hjoin Hb.
  assert (Hne : pre_elems ≠ []) by (rewrite <- Hsplit; apply Split_not_nil).
  unfold path_Join, path_Clean.
  change (String c0 pre0 +:+ "/" +:+ b)
    with (String c0 pre0 +:+ String "/" b).
  rewrite Split_app, Hsplit.
  change (String c0 pre0 +:+ String "/" b)
    with (String c0 (pre0 +:+ String "/" b)).
  cbv beta iota.
  replace (Ascii.eqb c0 "/") with false
    by (symmetry; by apply Ascii.eqb_neq).
  rewrite clean_elements_plain.
  2:{ apply Forall_app. split; [|done].
      eapply Forall_impl; [exact Hpre|]. by intros ? []. }
  simpl rev. rewrite app_nil_l, filter_app.
  replace (filter _ pre_elems) with pre_elems.
  2:{ symmetry. clear -Hpre. induction Hpre as [|e l [He _] _ IH]; [done|].
      by rewrite filter_cons_True, IH. }
  fold (kept_elements b).
  destruct (pre_elems ++ kept_elements b) eqn:E.
  { apply app_eq_nil in E as [? _]. done. }
  rewrite <- E, (Join_app _ _ _ Hne), Hjoin. unfold path_suffix.
  by destruct (kept_elements b).
Qed.

(** X17: [WithVersion] always records the version, and puts it into the
    path prefix exactly when it is well formed or is the unstable one;
    every other version leaves the unversioned prefix.  It leaves the
    retry budget alone, as [WithRetry] leaves the version and the
    prefix alone, so the client [NewClient] makes has the version and
    the prefix of the last [WithVersion] among its options, whatever
    [WithRetry] options come after it. *)
Theorem WithVersion_prefix (version : string) (c : Client)
    (opts : list (Client → Client)) (budgets : list Z) :
  let prefix :=
    if valid_version version then "admin/api/" +:+ version else "admin" in
  let made :=
    NewClient_fields (opts ++ WithVersion version :: map WithRetry budgets) in
  apiVersion (WithVersion version c) = version ∧
  pathPrefix (WithVersion version c) = prefix ∧
  retries (WithVersion version c) = retries c ∧
  apiVersion made = version ∧
  pathPrefix made = prefix ∧
  retries made = default (retries (NewClient_fields opts)) (last budgets).
Proof.
  intros prefix made.
  assert (Hprefix : ∀ c', pathPrefix (WithVersion version c') = prefix).
  { intros c'. unfold WithVersion, prefix. simpl. fold (valid_version version).
    destruct (valid_version version) eqn:Hv.
    - by destruct (valid_version_element _ Hv) as (_ & _ & _ & _ & ->).
    - by rewrite andb_false_r. }
  split; [done|]. split; [done|]. split; [done|].
  subst made. unfold NewClient_fields. rewrite fold_left_app. simpl.
  set (c1 := fold_left _ opts _).
  assert (Hfold : ∀ c',
            let c2 := fold_left (λ c opt, opt c) (map WithRetry budgets) c' in
            apiVersion c2 = apiVersion c' ∧ pathPrefix c2 = pathPrefix c' ∧
            retries c2 = default (retries c') (last budgets)).
  { clear. induction budgets as [|k budgets IH]; intros c'; simpl; [done|].
    destruct (IH (WithRetry k c')) as (-> & -> & ->).
    repeat split. rewrite last_cons. by destruct (last budgets). }
  destruct (Hfold (WithVersion version c1)) as (-> & -> & ->).
  by rewrite Hprefix.
Qed.

(** X18: the path of a request starts with the prefix of the client,
    followed by the elements of the relative path that are neither
    empty nor [.], whenever the relative path has no [..] element;
    leading slashes of the relative path do not matter. *)
Theorem request_path_prefix (version : string) (c : Client) (relPath : string) :
  Forall (λ e, e ≠ "..") (Split relPath "/") →
  request_path (WithVersion version c) relPath =
  pathPrefix (WithVersion version c) +:+ path_suffix (kept_elements relPath).
Proof.
  intros Hrel. unfold request_path.
  destruct (TrimLeft_slash_elements relPath) as [<- Hall].
  specialize (Hall Hrel).
  assert (Hprefix : pathPrefix (WithVersion version c) =
            if valid_version version then "admin/api/" +:+ version
            else "admin").
  { unfold WithVersion. simpl. fold (valid_version version).
    destruct (valid_version version) eqn:Hv.
    - by destruct (valid_version_element _ Hv) as (_ & _ & _ & _ & ->).
    - by rewrite andb_false_r. }
  rewrite Hprefix. clear Hprefix.
  destruct (valid_version version) eqn:Hv.
  - destruct (valid_version_element _ Hv) as (Hs & Hn1 & Hn2 & Hn3 & _).
    apply (path_Join_prefix _ _ _ ["admin"; "api"; version]); try done.
    + change (Split ("admin" +:+ String "/" ("api" +:+ String "/" version)) "/"
              = ["admin"; "api"; version]).
      by rewrite !Split_app, Hs.
    + repeat constructor; try done; intros [|]; done.
  - apply (path_Join_prefix _ _ _ ["admin"]); try done.
    repeat constructor; try done; intros [|]; done.
Qed.

Lemma request_path_prefix_witness :
  request_path (WithVersion "2024-01" (client0 0)) "/orders/./450789469.json" =
    "admin/api/2024-01/orders/450789469.json" ∧
  request_path (WithVersion "2024-01" (client0 0)) "/orders/./450789469.json" =
    pathPrefix (WithVersion "2024-01" (client0 0)) +:+
    path_suffix (kept_elements "/orders/./450789469.json").
Proof.
  split; [vm_compute; reflexivity|].
  apply (request_path_prefix "2024-01" (client0 0) "/orders/./450789469.json").
  vm_compute. repeat constructor; discriminate.
Defined.

(** A relative path with [..] elements leaves the version prefix. *)
Example request_path_escapes :
  request_path (WithVersion "2024-01" (client0 0)) "../../oauth/access_scopes.json"
  = "admin/oauth/access_scopes.json".
Proof. vm_compute. reflexivity. Qed.

(** ** The calls built on [doGetHeaders] *)

Section Calls.
Context `{EncodingJSON} `{Fmt} `{Strconv} `{Runtime} `{NetURL}.

(** A request for a nil body has an empty body. *)
Lemma NewRequest_nil_body (cr : Credentials) (method relPath : string)
    (options : option (Values + string)) (req : Request) :
  NewRequest cr method relPath None options = inl req → ReqBody req = "".
Proof.
  unfold NewRequest.
  destruct (url_Parse relPath) as [rel|e]; [|done].
  destruct options as [[optionsQuery|e]|]; [|done|];
    repeat case_decide; by intros [= <-].
Qed.

(** An error of the API leaves the value the call decodes into as it
    was: only a response that passed the check is decoded. *)
Lemma doGetHeaders_api_error {V : Type} (Dec : string → V → V * option string)
    (c : Client) (script : list RoundTrip) (tr : list Event)
    (body : option string) (v : option V) (ex : DoExit V) (err : error) :
  doGetHeaders Dec c script tr body v = Done ex →
  de_result ex = inr err → is_api_error err = true →
  de_v ex = v.
Proof.
  unfold doGetHeaders.
  destruct (retry_loop _ _ _ _ _) as [[n tr' script' [resp|e]]| | |];
    try done.
  - destruct v as [x|]; [destruct (RespBody resp) as [bytes|e]|].
    + destruct (Dec bytes x) as [x' [e|]]; intros [= <-]; simpl;
        intros [= <-]; done.
    + intros [= <-]; simpl; intros [= <-]; done.
    + intros [= <-]; simpl; done.
  - by intros [= <-].
Qed.

Context {V : Type}.
Variable Decode : string → V → V * option string.

(** X19: a call through [createAndDoGetHeaders] either fails to build
    its request, and then sends nothing and leaves the client, its
    attempt counter included, as it was; or it sends the body of the
    request it built at least once and at most as many times as the
    retry budget (once when the budget is below one). *)
Theorem createAndDoGetHeaders_sends (cr : Credentials) (c : Client)
    (script : list RoundTrip) (tr : list Event) (method relPath : string)
    (data : option (string + string)) (options : option (Values + string))
    (resource : option V) (ex : DoExit V) :
  is_int (retries c) →
  createAndDoGetHeaders Decode cr c script tr method relPath data options
    resource = Done ex →
  match NewRequest cr method (request_path c relPath) data options with
  | inr e =>
      ex = mkDoExit c tr script resource (inr e)
  | inl req =>
      ∃ evs : list Event,
        de_trace ex = tr ++ evs ∧
        sends evs =
          replicate (Z.to_nat (attempts (de_client ex))) (Some (ReqBody req)) ∧
        1 ≤ attempts (de_client ex) ≤ Z.max 1 (retries c)
  end.
Proof.
  intros Hint. unfold createAndDoGetHeaders.
  destruct (NewRequest _ _ _ _ _) as [req|e]; [|by intros [= <-]].
  intros Hrun.
  destruct (doGetHeaders_counted _ _ _ _ _ _ _ Hint Hrun)
    as (evs & Htr & Hs & Ha & _).
  by exists evs.
Qed.

(** X20: [ListWithPagination] sends only requests with an empty body;
    a pagination it returns comes from the [Link] header of a call that
    succeeded and has well-formed cursors; and when it returns an error
    of the extractor, the call itself had succeeded, so the resource is
    decoded and the rate limits are those of the response. *)
Theorem ListWithPagination_result (cr : Credentials) (c : Client)
    (script : list RoundTrip) (tr : list Event) (path : string)
    (resource : option V) (options : option (Values + string))
    (lx : ListExit V) :
  is_int (retries c) →
  ListWithPagination Decode cr c script tr path resource options = Done lx →
  ∃ (ex : DoExit V) (evs : list Event),
    createAndDoGetHeaders Decode cr c script tr "GET" path None options
      resource = Done ex ∧
    lw_client lx = de_client ex ∧ lw_v lx = de_v ex ∧
    lw_trace lx = tr ++ evs ∧ Forall (λ b, b = Some "") (sends evs) ∧
    match lw_result lx with
    | inl p =>
        (∃ h, de_result ex = inl h ∧
              extractPagination (Header_Get h "Link") = inl p) ∧
        (∀ o, NextPageOptions p = Some o ∨ PreviousPageOptions p = Some o →
              is_cursor o)
    | inr err =>
        de_result ex = inr err ∨
        ∃ h, de_result ex = inl h ∧
             extractPagination (Header_Get h "Link") = inr err
    end.
Proof.
  intros Hint. unfold ListWithPagination.
  destruct (createAndDoGetHeaders _ _ _ _ _ _ _ _ _ _) as [ex| | |] eqn:Hcall;
    try done.
  intros [= <-]. simpl.
  assert (Hsends : ∃ evs, de_trace ex = tr ++ evs ∧
                          Forall (λ b, b = Some "") (sends evs)).
  { unfold createAndDoGetHeaders in Hcall.
    destruct (NewRequest _ _ _ _ _) as [req|e] eqn:Hreq.
    - destruct (doGetHeaders_counted _ _ _ _ _ _ _ Hint Hcall)
        as (evs & Htr & Hs & _).
      exists evs. split; [done|]. rewrite Hs, (NewRequest_nil_body _ _ _ _ _ Hreq).
      apply Forall_replicate. done.
    - injection Hcall as <-. exists []. simpl. by rewrite app_nil_r. }
  destruct Hsends as (evs & Htr & Hs).
  exists ex, evs. repeat split; try done.
  destruct (de_result ex) as [h|err]; [|by left].
  destruct (extractPagination (Header_Get h "Link")) as [p|err] eqn:Hp.
  - split; [by exists h|]. intros o Ho.
    unfold extractPagination in Hp. case_decide.
    + injection Hp as <-. simpl in Ho. by destruct Ho.
    + destruct (extract_links_cursors _ _ _ Hp) as [Hn Hpr]; [done|done|].
      destruct Ho; [by apply Hn|by apply Hpr].
  - right. by exists h.
Qed.

(** X21: a call never touches the GraphQL cost the client remembers,
    and it keeps the two counters of the call limit within the range
    of [int]. *)
Theorem doGetHeaders_rate_limits (c : Client) (script : list RoundTrip)
    (tr : list Event) (body : option string) (v : option V) (ex : DoExit V) :
  is_int (RateLimitInfo.RequestCount (RateLimits c)) →
  is_int (RateLimitInfo.BucketSize (RateLimits c)) →
  doGetHeaders Decode c script tr body v = Done ex →
  RateLimitInfo.GraphQLCost (RateLimits (de_client ex)) =
    RateLimitInfo.GraphQLCost (RateLimits c) ∧
  is_int (RateLimitInfo.RequestCount (RateLimits (de_client ex))) ∧
  is_int (RateLimitInfo.BucketSize (RateLimits (de_client ex))).
Proof.
  intros Hcount Hsize Hrun.
  destruct (doGetHeaders_inv _ _ _ _ _ _ _ Hrun)
    as (lex & _ & _ & _ & _ & _ & Hres).
  destruct (de_result ex) as [h|err].
  - destruct Hres as (resp & _ & _ & ->). unfold updateRateLimits.
    destruct (Split _ "/") as [|s0 [|s1 [|? ?]]]; simpl; try done.
    split; [done|]. split; apply Atoi_int.
  - destruct Hres as [-> _]. done.
Qed.

End Calls.

Section CountCall.
Context `{EncodingJSON} `{Fmt} `{Strconv} `{Runtime} `{NetURL}.
Variable Decode : string → Z → Z * option string.

(** X22: [Count] returns 0 together with every error classified from a
    response of the API: the count is decoded only from a response
    that passed the check. *)
Theorem Count_zero_on_api_error (cr : Credentials) (c : Client)
    (script : list RoundTrip) (tr : list Event) (path : string)
    (options : option (Values + string)) (cx : CountExit) (err : error) :
  Count Decode cr c script tr path options = Done cx →
  ct_err cx = Some err → is_api_error err = true →
  ct_count cx = 0.
Proof.
  unfold Count, createAndDoGetHeaders.
  destruct (NewRequest _ _ _ _ _) as [req|e].
  - destruct (doGetHeaders _ _ _ _ _ _) as [ex| | |] eqn:Hrun; try done.
    intros [= <-]. simpl.
    destruct (de_result ex) as [h|e] eqn:Hres; [done|].
    intros [= ->] Hapi.
    by rewrite (doGetHeaders_api_error _ _ _ _ _ _ _ _ Hrun Hres Hapi).
  - by intros [= <-].
Qed.

End CountCall.

Lemma createAndDoGetHeaders_sends_witness :
  ∃ ex : DoExit unit,
    createAndDoGetHeaders no_decode credentials0 (client0 2)
      [inl resp_503; inl resp_200] [] "POST" "/orders.json"
      (Some (inl "{}")) None None = Done ex ∧
    match NewRequest credentials0 "POST"
            (request_path (client0 2) "/orders.json") (Some (inl "{}")) None
    with
    | inr e =>
        ex = mkDoExit (client0 2) [] [inl resp_503; inl resp_200] None (inr e)
    | inl req =>
        ∃ evs : list Event,
          de_trace ex = [] ++ evs ∧
          sends evs =
            replicate (Z.to_nat (attempts (de_client ex)))
              (Some (ReqBody req)) ∧
          1 ≤ attempts (de_client ex) ≤ Z.max 1 (retries (client0 2))
    end.
Proof.
  eexists. split; [vm_compute; reflexivity|].
  apply (createAndDoGetHeaders_sends no_decode credentials0 (client0 2)
           [inl resp_503; inl resp_200] [] "POST" "/orders.json"
           (Some (inl "{}")) None None).
  - vm_compute. split; discriminate.
  - vm_compute. reflexivity.
Defined.

Lemma ListWithPagination_result_witness :
  ∃ lx : ListExit unit,
    ListWithPagination no_decode credentials0 (client0 1)
      [inl resp_200_linked] [] "orders.json" None None = Done lx ∧
    ∃ (ex : DoExit unit) (evs : list Event),
      createAndDoGetHeaders no_decode credentials0 (client0 1)
        [inl resp_200_linked] [] "GET" "orders.json" None None None
        = Done ex ∧
      lw_client lx = de_client ex ∧ lw_v lx = de_v ex ∧
      lw_trace lx = [] ++ evs ∧ Forall (λ b, b = Some "") (sends evs) ∧
      match lw_result lx with
      | inl p =>
          (∃ h, de_result ex = inl h ∧
                extractPagination (Header_Get h "Link") = inl p) ∧
          (∀ o, NextPageOptions p = Some o ∨ PreviousPageOptions p = Some o →
                is_cursor o)
      | inr err =>
          de_result ex = inr err ∨
          ∃ h, de_result ex = inl h ∧
               extractPagination (Header_Get h "Link") = inr err
      end.
Proof.
  eexists. split; [vm_compute; reflexivity|].
  apply (ListWithPagination_result no_decode credentials0 (client0 1)
           [inl resp_200_linked] [] "orders.json" None None).
  - vm_compute. split; discriminate.
  - vm_compute. reflexivity.
Defined.

Lemma doGetHeaders_rate_limits_witness :
  ∃ ex : DoExit unit,
    doGetHeaders no_decode (client0 1) [inl resp_200] [] None None = Done ex ∧
    RateLimitInfo.GraphQLCost (RateLimits (de_client ex)) =
      RateLimitInfo.GraphQLCost (RateLimits (client0 1)) ∧
    is_int (RateLimitInfo.RequestCount (RateLimits (de_client ex))) ∧
    is_int (RateLimitInfo.BucketSize (RateLimits (de_client ex))).
Proof.
  eexists. split; [vm_compute; reflexivity|].
  apply (doGetHeaders_rate_limits no_decode (client0 1) [inl resp_200] []
           None None).
  - vm_compute. split; discriminate.
  - vm_compute. split; discriminate.
  - vm_compute. reflexivity.
Defined.

Lemma Count_zero_on_api_error_witness :
  ∃ cx : CountExit,
    Count decode_count credentials0 (client0 1) [inl resp_503] []
      "orders/count.json" None = Done cx ∧
    ct_err cx = Some (ResponseError_ (mkResponseError 503 "" [])) ∧
    ct_count cx = 0.
Proof.
  eexists. split; [vm_compute; reflexivity|]. split; [reflexivity|].
  apply (Count_zero_on_api_error decode_count credentials0 (client0 1)
           [inl resp_503] [] "orders/count.json" None _
           (ResponseError_ (mkResponseError 503 "" []))).
  - vm_compute. reflexivity.
  - reflexivity.
  - reflexivity.
Defined.

(** A count that fails to decode is returned as the decoder left it. *)
Example Count_decode_error :
  ∃ cx : CountExit,
    Count decode_count credentials0 (client0 1)
      [inl (mkResponse 200 ∅ (inl "{"))] [] "orders/count.json" None
      = Done cx ∧
    ct_count cx = 7 ∧
    ct_err cx = Some (OtherError "unexpected end of JSON input").
Proof. eexists. split; vm_compute; repeat split; reflexivity. Qed.
